(** * gifcheck: a shallow embedding of the GIF grammar checker

    The development follows [gifcheck.go].  A buffer is a [list byte]; an
    offset ([idx], Go [int]) is a [nat]: every offset the program uses as an
    index is non-negative and exceeds the buffer length by at most a few
    hundred, so the 64-bit wrap-around of [int] is never reached.

    Go checks every index expression [data[i]] against [len(data)] and
    aborts the program with a run-time panic when it is out of range.  The
    embedding keeps that third way out of a function next to the two the
    source writes down ([nil] error, non-[nil] error): [Ok], [Err], [Panic].

    Logging ([log], [fmt.Println]) and the file system are left out, except
    that the arguments of a message are evaluated before the message is
    dropped, so an index expression inside one is kept. *)

From Stdlib Require Import Strings.Byte Strings.String NArith Lia.
From Stdlib Require Import Sorting.Sorted.
From stdpp Require Import base option list.
From Equations Require Import Equations.
From Equations.Prop Require Import Logic.

(** ** Constants and records *)

Definition trailer : byte := x3b.
Definition extension : byte := x21.

#[global] Instance byte_eq_dec : EqDecision byte := fun a b =>
  match Byte.eqb a b as c return Byte.eqb a b = c -> {a = b} + {a <> b} with
  | true => fun E => left (Byte.byte_dec_bl a b E)
  | false => fun E => right (Byte.eqb_false E)
  end eq_refl.

Record cfg := {
  logLevel : nat;
  reprocess : bool;
  outFile : string;
  write : bool
}.

(** [patch] records a desired change at a desired index. *)
Record patch := {
  index : nat;
  oldValue : byte;
  newValue : byte
}.

Module GS.
Record gifstate := {
  validSignature : bool;
  readTrailer : bool;
  bytesOutstanding : nat;
  patches : list patch
}.
End GS.
Abbreviation gifstate := GS.gifstate.

(** [new(gifstate)]: the zero value *)
Definition new_gifstate : gifstate :=
  {| GS.validSignature := false; GS.readTrailer := false;
     GS.bytesOutstanding := 0; GS.patches := [] |}.

Record header := { Signature : string; Version : string }.

Record logicalScreenDescriptor := {
  Width : nat;
  Height : nat;
  HasGlobalColourTable : bool;
  ColourResolution : nat;
  GlobalColourTableSorted : bool;
  GlobalColourTableSize : nat;
  BackgroundColourIndex : nat;
  PixelAspectRatio : nat
}.

Record applicationExtension := {
  Identifier : list byte;
  AuthenticationCode : list byte
}.

(** The values built by [fmt.Errorf], one constructor per message; an error
    wrapped with [%s] carries the inner one. *)
Inductive error : Type :=
| HeaderUnknownSignature
| HeaderUnknownVersion
| BackgroundIndexWithoutGlobalTable
| NoExtensionIntroducer
| GraphicControlLabelMissing
| UnexpectedBlockSize (sz : nat)
| MissingBlockTerminator
| NotGraphicRenderingBlock
| NoImageSeparator
| NotPlainTextExtension
| UnexpectedPlainTextBlockSize
| NotApplicationExtension
| UnexpectedApplicationBlockSize (sz : nat)
| ReadingDataSubBlocks (e : error)
| UnableToReadSpecialPurposeBlock (e : error)
| GraphicControlWithoutRendering (e : error) (next0 next1 : byte)
| UnableToReadGraphicRenderingBlock (e : error)
| NotTrailer
| UnableToReadDataBlocks (idx len : nat)
| InReadHeader (e : error)
| InLogicalScreenDescriptor (e : error)
| InGlobalColourTable (e : error)
| InDataBlocks (e : error)
| FailedToParseEntireImage (idx len : nat).

(** ** Results of a function call *)

Inductive outcome (A : Type) : Type :=
| Ok (a : A)
| Err (e : error)
| Panic.
Arguments Ok {A} a.
Arguments Err {A} e.
Arguments Panic {A}.

#[global] Instance outcome_ret : MRet outcome := fun A a => Ok a.
#[global] Instance outcome_bind : MBind outcome := fun A B f m =>
  match m with
  | Ok a => f a
  | Err e => Err e
  | Panic => Panic
  end.

(** [data[i]] *)
Definition byteAt (data : list byte) (i : nat) : outcome byte :=
  match data !! i with
  | Some b => Ok b
  | None => Panic
  end.

Definition eqb (a b : byte) : bool := bool_decide (a = b).
Definition neb (a b : byte) : bool := negb (eqb a b).

(** [data[i] == c] and [data[i] != c] *)
Definition isByte (m : outcome byte) (c : byte) : outcome bool := b ← m; Ok (eqb b c).
Definition isntByte (m : outcome byte) (c : byte) : outcome bool := b ← m; Ok (neb b c).

(** Go's [||] and [&&] evaluate the right operand only when needed. *)
Definition orElse (a b : outcome bool) : outcome bool :=
  x ← a; if x : bool then Ok true else b.
Definition andAlso (a b : outcome bool) : outcome bool :=
  x ← a; if x : bool then b else Ok false.

(** [b & m] on a byte, as a number *)
Definition band (b : byte) (m : N) : N := N.land (Byte.to_N b) m.

(** [math.Exp2] of the Go library at [float64(n)] for an integer [n],
    converted back with [int(...)].  The program calls it this way only;
    for the table sizes [n] is between 1 and 8, where [float64(n)], the
    power of two and the conversion back are exact. *)
Definition Exp2 (n : nat) : nat := 2 ^ n.

(** ** Productions *)

Definition readHeader (data : list byte) (idx : nat) : outcome (header * nat) :=
  bad ← orElse (isntByte (byteAt data idx) "G")
        (orElse (isntByte (byteAt data (idx + 1)) "I")
                (isntByte (byteAt data (idx + 2)) "F"));
  if bad : bool then Err HeaderUnknownSignature else
  let idx := idx + 3 in
  v87 ← andAlso (isByte (byteAt data idx) "8")
        (andAlso (isByte (byteAt data (idx + 1)) "7")
                 (isByte (byteAt data (idx + 2)) "a"));
  if v87 : bool then Ok ({| Signature := "GIF"; Version := "87a" |}, idx + 3) else
  v89 ← andAlso (isByte (byteAt data idx) "8")
        (andAlso (isByte (byteAt data (idx + 1)) "9")
                 (isByte (byteAt data (idx + 2)) "a"));
  if v89 : bool then Ok ({| Signature := "GIF"; Version := "89a" |}, idx + 3) else
  Err HeaderUnknownVersion.

Definition readLogicalScreenDescriptor (data : list byte) (idx : nat)
  : outcome (logicalScreenDescriptor * nat) :=
  let idx := idx + 2 in
  let idx := idx + 2 in
  packed ← byteAt data idx;
  let hasGlobalColourTable := N.eqb (band packed 0x80) 0x80 in
  let colourResolution := N.to_nat (N.shiftr (band packed 0x70) 4) + 1 in
  let sorted := N.eqb (band packed 0x08) 0x08 in
  let size := N.to_nat (band packed 0x07) in
  let idx := idx + 1 in
  bg ← byteAt data idx;
  if negb hasGlobalColourTable && neb bg x00 then Err BackgroundIndexWithoutGlobalTable else
  let idx := idx + 1 in
  par ← byteAt data idx;
  let idx := idx + 1 in
  Ok ({| Width := 0; Height := 0;
         HasGlobalColourTable := hasGlobalColourTable;
         ColourResolution := colourResolution;
         GlobalColourTableSorted := sorted;
         GlobalColourTableSize := size;
         BackgroundColourIndex := Byte.to_nat bg;
         PixelAspectRatio := Byte.to_nat par |}, idx).

Definition readGlobalColourTable (screenDescriptor : logicalScreenDescriptor) (idx : nat)
  : outcome nat :=
  let sz := 3 * Exp2 (GlobalColourTableSize screenDescriptor + 1) in
  Ok (idx + sz).

(** The loop of [readDataSubBlocks].  [buf] is the payload gathered so far.
    A slice expression [data[idx:idx+sz]] is checked against the capacity of
    [data], not its length; when it passes with [idx+sz >= len(data)] the
    next [data[idx]] is out of range, so the call panics in that case
    whichever check comes first, and on [Ok] every slice was inside the
    buffer. *)
Equations? readDataSubBlocks_from (data : list byte) (idx : nat) (buf : list byte)
  : outcome (list byte * nat) by wf (length data - idx) lt :=
readDataSubBlocks_from data idx buf with inspect (data !! idx) := {
  | exist _ None _ => Panic
  | exist _ (Some b) Hb =>
      let sz := Byte.to_nat b in
      if decide (sz = 0) then Ok (buf, idx + 1)
      else readDataSubBlocks_from data (idx + 1 + sz)
             (buf ++ take sz (drop (idx + 1) data)) }.
Proof. apply lookup_lt_Some in Hb. lia. Qed.

Definition readDataSubBlocks (data : list byte) (idx : nat) : outcome (list byte * nat) :=
  readDataSubBlocks_from data idx [].

Definition readApplicationExtension (data : list byte) (idx : nat)
  : outcome (applicationExtension * nat) :=
  b ← byteAt data idx;
  if neb b extension then Err NoExtensionIntroducer else
  let idx := idx + 1 in
  b ← byteAt data idx;
  if neb b xff then Err NotApplicationExtension else
  let idx := idx + 1 in
  b ← byteAt data idx;
  if negb (Byte.to_nat b =? 11) then Err (UnexpectedApplicationBlockSize (Byte.to_nat b)) else
  let idx := idx + 1 in
  let identifier := take 8 (drop idx data) in
  let idx := idx + 8 in
  let authenticationCode := take 3 (drop idx data) in
  let idx := idx + 3 in
  match readDataSubBlocks data idx with
  | Ok (_, idx) =>
      Ok ({| Identifier := identifier; AuthenticationCode := authenticationCode |}, idx)
  | Err e => Err (ReadingDataSubBlocks e)
  | Panic => Panic
  end.

Definition readSpecialPurposeBlock (data : list byte) (idx : nat) : outcome nat :=
  match readApplicationExtension data idx with
  | Ok (_, nextIdx) => Ok nextIdx
  | Err e => Err (UnableToReadSpecialPurposeBlock e)
  | Panic => Panic
  end.

Definition readGraphicControlExtension (data : list byte) (idx : nat) : outcome nat :=
  b ← byteAt data idx;
  if neb b extension then Err NoExtensionIntroducer else
  let idx := idx + 1 in
  b ← byteAt data idx;
  if neb b xf9 then Err GraphicControlLabelMissing else
  let idx := idx + 1 in
  b ← byteAt data idx;
  let sz := Byte.to_nat b in
  if negb (sz =? 4) then Err (UnexpectedBlockSize sz) else
  let idx := idx + 1 in
  let idx := idx + sz in
  b ← byteAt data idx;
  if neb b x00 then Err MissingBlockTerminator else
  let idx := idx + 1 in
  Ok idx.

Definition readTableBasedImage (data : list byte) (idx : nat) : outcome nat :=
  b ← byteAt data idx;
  if neb b x2c then Err NoImageSeparator else
  let idx := idx + 1 in
  let idx := idx + 2 in
  let idx := idx + 2 in
  let idx := idx + 2 in
  let idx := idx + 2 in
  packed ← byteAt data idx;
  let localColourTableFlag := N.eqb (band packed 0x80) 0x80 in
  let localColourTableSize := N.to_nat (band packed 0x07) in
  let idx := idx + 1 in
  let idx := if localColourTableFlag
             then idx + 3 * Exp2 (localColourTableSize + 1) else idx in
  codeSize ← byteAt data idx;
  let idx := idx + 1 in
  match readDataSubBlocks data idx with
  | Ok (_, idx) => Ok idx
  | Err e => Err (ReadingDataSubBlocks e)
  | Panic => Panic
  end.

Definition readPlainTextExtension (data : list byte) (idx : nat) : outcome nat :=
  b ← byteAt data idx;
  if neb b extension then Err NoExtensionIntroducer else
  let idx := idx + 1 in
  b ← byteAt data idx;
  if neb b x01 then Err NotPlainTextExtension else
  let idx := idx + 1 in
  b ← byteAt data idx;
  if negb (Byte.to_nat b =? 12) then Err UnexpectedPlainTextBlockSize else
  let idx := idx + 12 in
  match readDataSubBlocks data idx with
  | Ok (_, idx) => Ok idx
  | Err e => Err (ReadingDataSubBlocks e)
  | Panic => Panic
  end.

Definition readGraphicRenderingBlock (data : list byte) (idx : nat) : outcome nat :=
  match readTableBasedImage data idx with
  | Ok nextIdx => Ok nextIdx
  | Panic => Panic
  | Err _ =>
      match readPlainTextExtension data idx with
      | Ok nextIdx => Ok nextIdx
      | Panic => Panic
      | Err _ => Err NotGraphicRenderingBlock
      end
  end.

Definition readGraphicBlock (data : list byte) (idx : nat) : outcome nat :=
  gce ← match readGraphicControlExtension data idx with
        | Ok nextIdx => Ok (nextIdx, true)
        | Err _ => Ok (idx, false)
        | Panic => Panic
        end;
  let '(idx, haveGraphicControlExtension) := gce in
  match readApplicationExtension data idx with
  | Panic => Panic
  | Ok (_, nextIdx) => Ok nextIdx
  | Err _ =>
      match readGraphicRenderingBlock data idx with
      | Panic => Panic
      | Ok nextIdx => Ok nextIdx
      | Err e =>
          if haveGraphicControlExtension : bool then
            next0 ← byteAt data idx;
            next1 ← byteAt data (idx + 1);
            Err (GraphicControlWithoutRendering e next0 next1)
          else Err (UnableToReadGraphicRenderingBlock e)
      end
  end.

Definition readTrailer (data : list byte) (idx : nat) : outcome nat :=
  b ← byteAt data idx;
  if neb b trailer then Err NotTrailer else
  let idx := idx + 1 in
  Ok idx.

(** ** The block dispatcher *)

(** One pass through the body of the [for] loop of
    [readDataBlocksAndTrailer]: either [continue] with the buffer, offset
    and state as they are then, or [return].  The buffer is the caller's
    (a Go slice shares its array), so it is threaded like the state. *)
Inductive iteration : Type :=
| Continue (data : list byte) (idx : nat) (gs : gifstate)
| Return (r : outcome nat) (data : list byte) (gs : gifstate).

Definition sawTrailer (gs : gifstate) (outstanding : nat) : gifstate :=
  {| GS.validSignature := GS.validSignature gs;
     GS.readTrailer := true;
     GS.bytesOutstanding := outstanding;
     GS.patches := GS.patches gs |}.

Definition appendPatch (gs : gifstate) (p : patch) : gifstate :=
  {| GS.validSignature := GS.validSignature gs;
     GS.readTrailer := GS.readTrailer gs;
     GS.bytesOutstanding := GS.bytesOutstanding gs;
     GS.patches := GS.patches gs ++ [p] |}.

(** The body of [if trailerErr == nil]: the trailer byte is at [idx] and
    [nextIdx] is the offset after it.  [cd] is a copy of the buffer with the
    trailer byte replaced; the buffer itself is written only after
    [readGraphicBlock] has accepted the copy. *)
Definition trailerFound (conf : cfg) (data : list byte) (idx nextIdx : nat)
    (gs : gifstate) : iteration :=
  let gs := sawTrailer gs
              (if nextIdx <? length data then length data - nextIdx else 0) in
  if (0 <? GS.bytesOutstanding gs) && reprocess conf then
    let cd := <[idx := extension]> data in
    match readGraphicBlock cd idx with
    | Panic => Return Panic data gs
    | Ok i =>
        let data := <[idx := extension]> data in
        let gs := appendPatch gs
                    {| index := idx; newValue := extension; oldValue := trailer |} in
        Continue data idx gs
    | Err _ => Return (Ok nextIdx) data gs
    end
  else Return (Ok nextIdx) data gs.

Definition dispatch (conf : cfg) (data : list byte) (idx : nat) (gs : gifstate)
  : iteration :=
  match readSpecialPurposeBlock data idx with
  | Panic => Return Panic data gs
  | Ok nextIdx => Continue data nextIdx gs
  | Err specialPurposeErr =>
  match readGraphicBlock data idx with
  | Panic => Return Panic data gs
  | Ok nextIdx => Continue data nextIdx gs
  | Err graphicErr =>
  match readTrailer data idx with
  | Panic => Return Panic data gs
  | Ok nextIdx => trailerFound conf data idx nextIdx gs
  | Err trailerErr =>
      Return (Err (UnableToReadDataBlocks idx (length data))) data gs
  end end end.

(** The loop itself, run for at most [fuel] iterations; [None] when they
    are used up before the loop returns. *)
Fixpoint iterate (fuel : nat) (conf : cfg) (data : list byte) (idx : nat) (gs : gifstate)
  : option (outcome nat * list byte * gifstate) :=
  match fuel with
  | 0 => None
  | S fuel =>
      match dispatch conf data idx gs with
      | Continue data idx gs => iterate fuel conf data idx gs
      | Return r data gs => Some (r, data, gs)
      end
  end.

(** The [for] loop has no bound of its own.  [length data + 2] iterations
    are enough for every buffer and every offset, the empty buffer
    included ([readDataBlocksAndTrailer_total] below); at the call in
    [decodeGIF], [length data] are ([iterate_enough]). *)
Definition readDataBlocksAndTrailer (conf : cfg) (data : list byte) (idx : nat)
    (gs : gifstate) : option (outcome nat * list byte * gifstate) :=
  iterate (length data + 2) conf data idx gs.

(** The buffer, offset and state at the start of iteration [k + 1] of the
    loop, if it gets that far. *)
Fixpoint advance (k : nat) (conf : cfg) (data : list byte) (idx : nat) (gs : gifstate)
  : option (list byte * nat * gifstate) :=
  match k with
  | 0 => Some (data, idx, gs)
  | S k =>
      match dispatch conf data idx gs with
      | Continue data idx gs => advance k conf data idx gs
      | Return _ _ _ => None
      end
  end.

(** How many times the loop body runs. *)
Fixpoint iterations (fuel : nat) (conf : cfg) (data : list byte) (idx : nat)
    (gs : gifstate) : option nat :=
  match fuel with
  | 0 => None
  | S fuel =>
      match dispatch conf data idx gs with
      | Continue data idx gs => S <$> iterations fuel conf data idx gs
      | Return _ _ _ => Some 1
      end
  end.

(** ** The whole stream *)

Definition validated (gs : gifstate) : gifstate :=
  {| GS.validSignature := true;
     GS.readTrailer := GS.readTrailer gs;
     GS.bytesOutstanding := GS.bytesOutstanding gs;
     GS.patches := GS.patches gs |}.

(** [decodeGIF] from [idx := 0] up to the call of
    [readDataBlocksAndTrailer]: the offset where the data blocks start, or
    the error returned before. *)
Definition streamStart (data : list byte) (gs : gifstate) : outcome nat * gifstate :=
  let idx := 0 in
  match readHeader data idx with
  | Panic => (Panic, gs)
  | Err e => (Err (InReadHeader e), gs)
  | Ok (header, idx) =>
  let gs := validated gs in
  match readLogicalScreenDescriptor data idx with
  | Panic => (Panic, gs)
  | Err e => (Err (InLogicalScreenDescriptor e), gs)
  | Ok (screenDescriptor, idx) =>
  match (if HasGlobalColourTable screenDescriptor
         then readGlobalColourTable screenDescriptor idx else Ok idx) with
  | Panic => (Panic, gs)
  | Err e => (Err (InGlobalColourTable e), gs)
  | Ok idx => (Ok idx, gs)
  end end end.

(** [decodeGIF] up to the return of [readDataBlocksAndTrailer]: the offset
    reached, or the error returned. *)
Definition scanStream (conf : cfg) (data : list byte) (gs : gifstate)
  : option (outcome nat * list byte * gifstate) :=
  match streamStart data gs with
  | (Panic, gs) => Some (Panic, data, gs)
  | (Err e, gs) => Some (Err e, data, gs)
  | (Ok idx, gs) =>
      match readDataBlocksAndTrailer conf data idx gs with
      | None => None
      | Some (Panic, data, gs) => Some (Panic, data, gs)
      | Some (Err e, data, gs) => Some (Err (InDataBlocks e), data, gs)
      | Some (Ok idx, data, gs) => Some (Ok idx, data, gs)
      end
  end.

(** The loop that writes the patched file: a patch is applied when the
    byte at its index is still the old value, and is reported (here:
    collected in [skipped]) otherwise. *)
Fixpoint applyPatches (data : list byte) (ps : list patch) (skipped : list patch)
  : outcome (list byte * list patch) :=
  match ps with
  | [] => Ok (data, skipped)
  | p :: ps =>
      b ← byteAt data (index p);
      if eqb b (oldValue p)
      then applyPatches (<[index p := newValue p]> data) ps skipped
      else applyPatches data ps (skipped ++ [p])
  end.

(** What a call of [decodeGIF] leaves behind: the error returned ([Ok tt]
    for [nil]), the buffer, the state, and the bytes handed to
    [os.WriteFile] if it was called. *)
Record run := {
  returned : outcome unit;
  buffer : list byte;
  state : gifstate;
  written : option (list byte)
}.

Definition decodeGIF (conf : cfg) (data : list byte) (gs : gifstate) : option run :=
  match scanStream conf data gs with
  | None => None
  | Some (Panic, data, gs) =>
      Some {| returned := Panic; buffer := data; state := gs; written := None |}
  | Some (Err e, data, gs) =>
      Some {| returned := Err e; buffer := data; state := gs; written := None |}
  | Some (Ok idx, data, gs) =>
      if negb (idx =? length data) then
        Some {| returned := Err (FailedToParseEntireImage idx (length data));
                buffer := data; state := gs; written := None |}
      else if write conf && (0 <? String.length (outFile conf)) then
        match applyPatches data (GS.patches gs) [] with
        | Ok (data, _) =>
            Some {| returned := Ok tt; buffer := data; state := gs;
                    written := Some data |}
        | Err e =>
            Some {| returned := Err e; buffer := data; state := gs; written := None |}
        | Panic =>
            Some {| returned := Panic; buffer := data; state := gs; written := None |}
        end
      else
        Some {| returned := Ok tt; buffer := data; state := gs; written := None |}
  end.

(** ** Auxiliary definitions for the statements *)

(** Offsets are moved by [k] when [k] bytes are put in front. *)
Definition shift (k : nat) (r : outcome nat) : outcome nat :=
  match r with
  | Ok n => Ok (k + n)
  | Err e => Err e
  | Panic => Panic
  end.

Definition shift_snd {A} (k : nat) (r : outcome (A * nat)) : outcome (A * nat) :=
  match r with
  | Ok (a, n) => Ok (a, k + n)
  | Err e => Err e
  | Panic => Panic
  end.

(** The patch that [readDataBlocksAndTrailer] records for a trailer byte
    at [idx]. *)
Definition thePatch (idx : nat) : patch :=
  {| index := idx; newValue := extension; oldValue := trailer |}.

(** What is left to do at [idx]: the bytes from [idx] on, and one more when
    the byte at [idx] is a trailer that may still be patched. *)
Definition remaining (data : list byte) (idx : nat) : nat :=
  (length data - idx) + (if decide (data !! idx = Some trailer) then 1 else 0).

(** The buffer, offset and state at the start of iteration [k + 1] of the
    loop inside [decodeGIF], if the call gets that far. *)
Definition scanningAt (k : nat) (conf : cfg) (data : list byte) (gs : gifstate)
  : option (list byte * nat * gifstate) :=
  match streamStart data gs with
  | (Ok idx, gs) => advance k conf data idx gs
  | _ => None
  end.

(** A patch of the ledger whose byte in the buffer is the new value
    already. *)
Definition applied (data : list byte) (p : patch) : Prop :=
  data !! index p = Some extension ∧ newValue p = extension ∧ oldValue p = trailer.

(** The buffer and the state that an iteration hands on. *)
Definition bufferAfter (it : iteration) : list byte :=
  match it with
  | Continue d _ _ | Return _ d _ => d
  end.

Definition stateAfter (it : iteration) : gifstate :=
  match it with
  | Continue _ _ g | Return _ _ g => g
  end.

(** The same configuration with [-reprocess] off. *)
Definition withoutReprocess (conf : cfg) : cfg :=
  {| logLevel := logLevel conf; reprocess := false;
     outFile := outFile conf; write := write conf |}.

(** The result of [readDataBlocksAndTrailer] as [decodeGIF] passes it on. *)
Definition inDataBlocks (r : outcome nat) : outcome nat :=
  match r with
  | Err e => Err (InDataBlocks e)
  | _ => r
  end.

(** ** Definitions for further properties *)

(** The size byte of a sub-block of at most 255 bytes. *)
Definition sizeByte (chunk : list byte) : byte :=
  default x00 (Byte.of_nat (length chunk)).

(** A sequence of data sub-blocks as it stands in a file: every chunk after
    its size byte, and the block terminator. *)
Fixpoint encodeSubBlocks (chunks : list (list byte)) : list byte :=
  match chunks with
  | [] => [x00]
  | chunk :: chunks => sizeByte chunk :: chunk ++ encodeSubBlocks chunks
  end.




(** The ledger while the loop is at [idx] in the buffer [d], for the file
    [data] as it was read. *)
Definition ledgerAt (data d : list byte) (idx : nat) (g : gifstate) : Prop :=
  StronglySorted lt (index <$> GS.patches g) ∧
  Forall (λ p, data !! index p = Some trailer ∧
               oldValue p = trailer ∧ newValue p = extension ∧
               (index p < idx ∨ index p = idx ∧ d !! idx = Some extension))
    (GS.patches g) ∧
  (∀ i, idx ≤ i → d !! i = data !! i ∨ i = idx ∧ d !! idx = Some extension).

(** ** The loop before recovery was added

    [src/unnamed/part_000] is the program as it was before the state, the
    configuration and the recovery were added.  Its productions are those
    above (it writes 0x21 and 0x3b where [gifcheck.go] has [extension] and
    [trailer], and prints where [gifcheck.go] logs); its
    [readDataBlocksAndTrailer] takes the buffer and the offset only, returns
    at the first trailer, and its one error has no arguments. *)
Module Original.

Inductive result : Type :=
| Parsed (nextIdx : nat)
| UnableToReadDataBlocks
| Crash.

Inductive iteration : Type :=
| Next (idx : nat)
| Stop (r : result).

Definition dispatch (data : list byte) (idx : nat) : iteration :=
  match readSpecialPurposeBlock data idx with
  | Panic => Stop Crash
  | Ok nextIdx => Next nextIdx
  | Err specialPurposeErr =>
  match readGraphicBlock data idx with
  | Panic => Stop Crash
  | Ok nextIdx => Next nextIdx
  | Err graphicErr =>
  match readTrailer data idx with
  | Panic => Stop Crash
  | Ok nextIdx => Stop (Parsed nextIdx)
  | Err trailerErr => Stop UnableToReadDataBlocks
  end end end.

Fixpoint iterate (fuel : nat) (data : list byte) (idx : nat) : option result :=
  match fuel with
  | 0 => None
  | S fuel =>
      match dispatch data idx with
      | Next idx => iterate fuel data idx
      | Stop r => Some r
      end
  end.

Definition readDataBlocksAndTrailer (data : list byte) (idx : nat) : option result :=
  iterate (length data + 2) data idx.

(** What a result of [gifcheck.go] is in these terms. *)
Definition ofOutcome (r : outcome nat) : result :=
  match r with
  | Ok n => Parsed n
  | Err _ => UnableToReadDataBlocks
  | Panic => Crash
  end.

End Original.

(** ** Example buffers *)

Definition ex_conf (recover : bool) : cfg :=
  {| logLevel := 2; reprocess := recover; outFile := "out.gif"; write := true |}.

Definition ex_header : list byte := ["G"; "I"; "F"; "8"; "9"; "a"]%byte.

(** 1 x 1 pixels, no global colour table *)
Definition ex_screen : list byte := [x01; x00; x01; x00; x00; x00; x00].

(** a Table-Based Image with one data sub-block of two bytes *)
Definition ex_image : list byte :=
  [x2c; x00; x00; x00; x00; x01; x00; x01; x00; x00; x02; x02; x4c; x01; x00].

Definition ex_control : list byte := [x21; xf9; x04; x00; x00; x00; x00; x00].

(** One frame and the trailer. *)
Definition ex_single : list byte :=
  ex_header ++ ex_screen ++ ex_image ++ [x3b].

(** Two frames, the second with the first byte of its Graphic Control
    Extension overwritten by a trailer byte. *)
Definition ex_forged : list byte :=
  ex_header ++ ex_screen ++ ex_image ++ [x3b] ++ tail ex_control ++ ex_image ++ [x3b].

(** One frame, a trailer, and a byte after it that starts no block. *)
Definition ex_trailing : list byte :=
  ex_header ++ ex_screen ++ ex_image ++ [x3b; x00].

(** A Graphic Control Extension, one byte that starts no block, and the end
    of the buffer. *)
Definition ex_cut_short : list byte :=
  ex_header ++ ex_screen ++ ex_control ++ [x00].

(** A Plain Text Extension laid out as the format has it: the twelve bytes
    that the size byte announces, then the text, here one sub-block of two
    bytes, and the block terminator. *)
Definition ex_plain_text : list byte :=
  [x21; x01; x0c;
   x00; x00; x00; x00; x00; x00; x00; x00; x00; x00; x00; x00;
   x02; x68; x69; x00].

(** * Properties *)

(** ** Reading a byte *)

Lemma byteAt_Ok data i b : byteAt data i = Ok b ↔ data !! i = Some b.
Proof. unfold byteAt. destruct (data !! i); split; congruence. Qed.

Lemma byteAt_lt data i b : byteAt data i = Ok b → i < length data.
Proof. intros H%byteAt_Ok. by eapply lookup_lt_Some. Qed.

Lemma byteAt_Panic data i : byteAt data i = Panic ↔ length data ≤ i.
Proof.
  unfold byteAt. destruct (data !! i) eqn:E.
  - apply lookup_lt_Some in E. split; [congruence | lia].
  - by apply lookup_ge_None in E.
Qed.

Lemma byteAt_not_Err data i e : byteAt data i ≠ Err e.
Proof. unfold byteAt. by destruct (data !! i). Qed.

(** A read that succeeds in [d] reads the same byte when [d] sits inside a
    longer buffer. *)
Lemma byteAt_frame pre d post i b :
  byteAt d i = Ok b → byteAt (pre ++ d ++ post) (length pre + i) = Ok b.
Proof.
  rewrite !byteAt_Ok. intros H.
  rewrite lookup_app_r by lia.
  replace (length pre + i - length pre) with i by lia.
  by apply lookup_app_l_Some.
Qed.

Lemma neb_false a b : neb a b = false ↔ a = b.
Proof.
  unfold neb, eqb. rewrite negb_false_iff. apply bool_decide_eq_true.
Qed.

Lemma neb_true a b : neb a b = true ↔ a ≠ b.
Proof.
  unfold neb, eqb. rewrite negb_true_iff. apply bool_decide_eq_false.
Qed.

Ltac simpl_bind := cbn [mbind outcome_bind mret outcome_ret].

(** ** Data sub-blocks *)

Lemma readDataSubBlocks_from_step data idx buf :
  readDataSubBlocks_from data idx buf =
  match data !! idx with
  | None => Panic
  | Some b =>
      if decide (to_nat b = 0) then Ok (buf, idx + 1)
      else readDataSubBlocks_from data (idx + 1 + to_nat b)
             (buf ++ take (to_nat b) (drop (idx + 1) data))
  end.
Proof.
  funelim (readDataSubBlocks_from data idx buf).
  - by rewrite Hb.
  - match goal with E : _ !! _ = None |- _ => by rewrite E end.
Qed.

Lemma readDataSubBlocks_from_not_Err data idx buf e :
  readDataSubBlocks_from data idx buf ≠ Err e.
Proof.
  funelim (readDataSubBlocks_from data idx buf); [| done].
  destruct (decide (to_nat b = 0)); [done | by apply H].
Qed.

Lemma readDataSubBlocks_from_bounds data idx buf payload n :
  readDataSubBlocks_from data idx buf = Ok (payload, n) →
  idx < n ≤ length data.
Proof.
  funelim (readDataSubBlocks_from data idx buf); [| done].
  pose proof (lookup_lt_Some _ _ _ Hb). destruct (decide (to_nat b = 0)).
  - intros [= _ <-]. lia.
  - intros Hn. apply H in Hn; [lia | done].
Qed.

Lemma readDataSubBlocks_from_Panic data idx buf :
  length data ≤ idx → readDataSubBlocks_from data idx buf = Panic.
Proof.
  intros Hlen. funelim (readDataSubBlocks_from data idx buf); [| done].
  pose proof (lookup_lt_Some _ _ _ Hb). lia.
Qed.

Lemma take_drop_frame (pre d post : list byte) i n :
  i + n ≤ length d →
  take n (drop (length pre + i) (pre ++ d ++ post)) = take n (drop i d).
Proof.
  intros Hlen.
  rewrite drop_app_ge by lia.
  replace (length pre + i - length pre) with i by lia.
  rewrite drop_app_le by lia.
  rewrite take_app_le; [done |]. rewrite length_drop. lia.
Qed.

Lemma readDataSubBlocks_from_frame pre d post idx buf :
  readDataSubBlocks_from d idx buf ≠ Panic →
  readDataSubBlocks_from (pre ++ d ++ post) (length pre + idx) buf
  = shift_snd (length pre) (readDataSubBlocks_from d idx buf).
Proof.
  funelim (readDataSubBlocks_from d idx buf); [| done].
  intros Hnp.
  rewrite (readDataSubBlocks_from_step (pre ++ data ++ post)).
  assert (Hb' : (pre ++ data ++ post) !! (length pre + idx) = Some b).
  { apply byteAt_Ok, byteAt_frame. by apply byteAt_Ok. }
  rewrite Hb'. destruct (decide (to_nat b = 0)) as [Hz|Hz].
  - cbn. do 2 f_equal. lia.
  - specialize (H Hz pre post Hnp).
    destruct (readDataSubBlocks_from data (idx + 1 + to_nat b) _) as [[p n]| |] eqn:E;
      [| exfalso; by eapply readDataSubBlocks_from_not_Err | done].
    pose proof (readDataSubBlocks_from_bounds _ _ _ _ _ E) as Hn.
    replace (length pre + idx + 1 + to_nat b) with (length pre + (idx + 1 + to_nat b)) by lia.
    replace (length pre + idx + 1) with (length pre + (idx + 1)) by lia.
    rewrite take_drop_frame by lia. apply H; done.
Qed.

(** ** Stepping through a production *)

Tactic Notation "simpl_bind" "in" hyp(H) :=
  cbn [mbind outcome_bind mret outcome_ret] in H.

Ltac frame_read pre post :=
  match goal with
  | |- (byteAt ?d ?i ≫= _) ≠ Panic → _ =>
      let E := fresh "E" in
      let b := fresh "b" in
      destruct (byteAt d i) as [b|?|] eqn:E;
      [ let E' := fresh "E'" in
        pose proof (byteAt_frame pre d post _ _ E) as E';
        rewrite ?Nat.add_assoc in E'; rewrite ?E'; clear E'
      | exfalso; exact (byteAt_not_Err _ _ _ E)
      | done ];
      simpl_bind
  end.

Ltac frame_if :=
  match goal with
  | |- (if ?c then _ else _) ≠ Panic → _ =>
      let C := fresh "C" in destruct c eqn:C; try done
  end.

Ltac frame_steps pre post := simpl_bind; repeat first [frame_read pre post | frame_if].

Ltac inv_read H :=
  match type of H with
  | (byteAt ?d ?i ≫= _) = _ =>
      let E := fresh "E" in
      let b := fresh "b" in
      destruct (byteAt d i) as [b|?|] eqn:E; simpl_bind in H;
      [ | discriminate H | discriminate H ]
  | (if ?c then _ else _) = _ =>
      let C := fresh "C" in destruct c eqn:C; try discriminate H
  end.

Ltac inv_steps H := simpl_bind in H; repeat inv_read H.

Ltac tidy :=
  repeat match goal with
  | C : neb _ _ = false |- _ => apply neb_false in C; subst
  | C : neb _ _ = true |- _ => apply neb_true in C
  | C : negb (_ =? _) = false |- _ => apply negb_false_iff, Nat.eqb_eq in C
  | C : negb (_ =? _) = true |- _ => apply negb_true_iff, Nat.eqb_neq in C
  | E : byteAt _ _ = Ok _ |- _ =>
      pose proof (byteAt_lt _ _ _ E); apply byteAt_Ok in E
  | H : Ok _ = Ok _ |- _ => injection H as H; subst
  end.

(** ** What a production that succeeds has read *)

Lemma readDataSubBlocks_Ok data idx payload n :
  readDataSubBlocks data idx = Ok (payload, n) → idx < n ≤ length data.
Proof. apply readDataSubBlocks_from_bounds. Qed.

Lemma readDataSubBlocks_not_Err data idx e : readDataSubBlocks data idx ≠ Err e.
Proof. apply readDataSubBlocks_from_not_Err. Qed.

Ltac inv_sub H :=
  match type of H with
  | match readDataSubBlocks ?d ?i with _ => _ end = _ =>
      let E := fresh "E" in
      let p := fresh "payload" in
      let n := fresh "n" in
      destruct (readDataSubBlocks d i) as [[p n]|?|] eqn:E;
      [ pose proof (readDataSubBlocks_Ok _ _ _ _ E)
      | discriminate H | discriminate H ]
  end.

Lemma readGraphicControlExtension_Ok data idx n :
  readGraphicControlExtension data idx = Ok n →
  n = idx + 8 ∧ n ≤ length data ∧
  data !! idx = Some extension ∧ data !! (idx + 1) = Some xf9.
Proof.
  unfold readGraphicControlExtension. intros H. inv_steps H. tidy.
  repeat split; [lia | lia | done | done].
Qed.

Lemma readApplicationExtension_Ok data idx ext n :
  readApplicationExtension data idx = Ok (ext, n) →
  idx + 15 ≤ n ≤ length data ∧
  data !! idx = Some extension ∧ data !! (idx + 1) = Some xff.
Proof.
  unfold readApplicationExtension. intros H. inv_steps H. inv_sub H. tidy.
  repeat split; [lia | lia | done | done].
Qed.

Lemma readSpecialPurposeBlock_Ok data idx n :
  readSpecialPurposeBlock data idx = Ok n →
  idx + 15 ≤ n ≤ length data ∧
  data !! idx = Some extension ∧ data !! (idx + 1) = Some xff.
Proof.
  unfold readSpecialPurposeBlock. intros H.
  destruct (readApplicationExtension data idx) as [[ext m]|?|] eqn:E; try discriminate H.
  injection H as <-. by eapply readApplicationExtension_Ok.
Qed.

Lemma readTableBasedImage_Ok data idx n :
  readTableBasedImage data idx = Ok n →
  idx + 12 ≤ n ≤ length data ∧ data !! idx = Some x2c.
Proof.
  unfold readTableBasedImage. intros H. inv_steps H. inv_sub H. tidy.
  repeat split; [| lia | done].
  destruct (_ =? _)%N; lia.
Qed.

Lemma readPlainTextExtension_Ok data idx n :
  readPlainTextExtension data idx = Ok n →
  idx + 15 ≤ n ≤ length data ∧
  data !! idx = Some extension ∧ data !! (idx + 1) = Some x01.
Proof.
  unfold readPlainTextExtension. intros H. inv_steps H. inv_sub H. tidy.
  repeat split; [lia | lia | done | done].
Qed.

Lemma readGraphicRenderingBlock_Ok data idx n :
  readGraphicRenderingBlock data idx = Ok n →
  idx + 12 ≤ n ≤ length data ∧
  (data !! idx = Some x2c ∨ data !! idx = Some extension).
Proof.
  unfold readGraphicRenderingBlock. intros H.
  destruct (readTableBasedImage data idx) as [m|?|] eqn:E1; try discriminate H.
  - injection H as <-. apply readTableBasedImage_Ok in E1 as [? ?]. by split; [| left].
  - destruct (readPlainTextExtension data idx) as [m|?|] eqn:E2; try discriminate H.
    injection H as <-. apply readPlainTextExtension_Ok in E2 as (? & ? & ?).
    split; [lia | by right].
Qed.

Lemma readTrailer_Ok data idx n :
  readTrailer data idx = Ok n →
  n = idx + 1 ∧ n ≤ length data ∧ data !! idx = Some trailer.
Proof.
  unfold readTrailer. intros H. inv_steps H. tidy.
  repeat split; [lia | done].
Qed.

Lemma readGraphicBlock_Ok data idx n :
  readGraphicBlock data idx = Ok n →
  idx + 12 ≤ n ≤ length data ∧
  (data !! idx = Some x2c ∨ data !! idx = Some extension).
Proof.
  unfold readGraphicBlock. intros H.
  destruct (readGraphicControlExtension data idx) as [m|?|] eqn:E1;
    simpl_bind in H; try discriminate H.
  - apply readGraphicControlExtension_Ok in E1 as (-> & ? & ? & ?).
    destruct (readApplicationExtension data (idx + 8)) as [[ext k]|?|] eqn:E2;
      try discriminate H.
    + injection H as <-. apply readApplicationExtension_Ok in E2.
      split; [lia | by right].
    + destruct (readGraphicRenderingBlock data (idx + 8)) as [k|?|] eqn:E3;
        try discriminate H.
      * injection H as <-. apply readGraphicRenderingBlock_Ok in E3.
        split; [lia | by right].
      * inv_steps H. discriminate H.
  - destruct (readApplicationExtension data idx) as [[ext k]|?|] eqn:E2;
      try discriminate H.
    + injection H as <-. apply readApplicationExtension_Ok in E2 as (? & ? & ?).
      split; [lia | by right].
    + destruct (readGraphicRenderingBlock data idx) as [k|?|] eqn:E3;
        try discriminate H.
      injection H as <-. by apply readGraphicRenderingBlock_Ok in E3.
Qed.

(** ** Productions inside a longer buffer *)

Lemma readDataSubBlocks_frame pre d post idx :
  readDataSubBlocks d idx ≠ Panic →
  readDataSubBlocks (pre ++ d ++ post) (length pre + idx)
  = shift_snd (length pre) (readDataSubBlocks d idx).
Proof. apply readDataSubBlocks_from_frame. Qed.

Ltac frame_sub pre post :=
  match goal with
  | |- match readDataSubBlocks ?d ?i with _ => _ end ≠ Panic → _ =>
      let E := fresh "E" in
      let E' := fresh "E'" in
      let p := fresh "payload" in
      let n := fresh "n" in
      pose proof (readDataSubBlocks_frame pre d post i) as E';
      destruct (readDataSubBlocks d i) as [[p n]|?|] eqn:E;
      [ pose proof (readDataSubBlocks_Ok _ _ _ _ E);
        specialize (E' ltac:(done)); rewrite ?Nat.add_assoc in E'; rewrite E'; clear E'
      | exfalso; exact (readDataSubBlocks_not_Err _ _ _ E)
      | done ]
  end.

Lemma readGraphicControlExtension_frame pre d post idx :
  readGraphicControlExtension d idx ≠ Panic →
  readGraphicControlExtension (pre ++ d ++ post) (length pre + idx)
  = shift (length pre) (readGraphicControlExtension d idx).
Proof.
  unfold readGraphicControlExtension. frame_steps pre post.
  intros _. cbn. f_equal. lia.
Qed.

Lemma readApplicationExtension_frame pre d post idx :
  readApplicationExtension d idx ≠ Panic →
  readApplicationExtension (pre ++ d ++ post) (length pre + idx)
  = shift_snd (length pre) (readApplicationExtension d idx).
Proof.
  unfold readApplicationExtension. frame_steps pre post. frame_sub pre post.
  intros _. cbn. rewrite <- !Nat.add_assoc.
  rewrite !take_drop_frame by lia. done.
Qed.

Lemma readSpecialPurposeBlock_frame pre d post idx :
  readSpecialPurposeBlock d idx ≠ Panic →
  readSpecialPurposeBlock (pre ++ d ++ post) (length pre + idx)
  = shift (length pre) (readSpecialPurposeBlock d idx).
Proof.
  unfold readSpecialPurposeBlock. intros H.
  rewrite readApplicationExtension_frame.
  - by destruct (readApplicationExtension d idx) as [[??]|?|].
  - intros E. by rewrite E in H.
Qed.

Lemma readTableBasedImage_frame pre d post idx :
  readTableBasedImage d idx ≠ Panic →
  readTableBasedImage (pre ++ d ++ post) (length pre + idx)
  = shift (length pre) (readTableBasedImage d idx).
Proof.
  unfold readTableBasedImage. simpl_bind.
  frame_read pre post. frame_if. frame_read pre post.
  destruct (band b0 128 =? 128)%N;
    frame_steps pre post; frame_sub pre post; done.
Qed.

Lemma readPlainTextExtension_frame pre d post idx :
  readPlainTextExtension d idx ≠ Panic →
  readPlainTextExtension (pre ++ d ++ post) (length pre + idx)
  = shift (length pre) (readPlainTextExtension d idx).
Proof.
  unfold readPlainTextExtension. frame_steps pre post. frame_sub pre post. done.
Qed.

Lemma readTrailer_frame pre d post idx :
  readTrailer d idx ≠ Panic →
  readTrailer (pre ++ d ++ post) (length pre + idx)
  = shift (length pre) (readTrailer d idx).
Proof.
  unfold readTrailer. frame_steps pre post. intros _. cbn. f_equal. lia.
Qed.

Lemma readGraphicRenderingBlock_frame pre d post idx :
  readGraphicRenderingBlock d idx ≠ Panic →
  readGraphicRenderingBlock (pre ++ d ++ post) (length pre + idx)
  = shift (length pre) (readGraphicRenderingBlock d idx).
Proof.
  unfold readGraphicRenderingBlock. intros H.
  rewrite readTableBasedImage_frame by (intros E; by rewrite E in H).
  destruct (readTableBasedImage d idx) as [m|?|]; [done | | done].
  cbn [shift] in *.
  rewrite readPlainTextExtension_frame by (intros E; by rewrite E in H).
  by destruct (readPlainTextExtension d idx) as [m|?|].
Qed.

Lemma readGraphicBlock_frame pre d post idx :
  readGraphicBlock d idx ≠ Panic →
  readGraphicBlock (pre ++ d ++ post) (length pre + idx)
  = shift (length pre) (readGraphicBlock d idx).
Proof.
  unfold readGraphicBlock. intros H.
  rewrite readGraphicControlExtension_frame by (intros E; by rewrite E in H).
  destruct (readGraphicControlExtension d idx) as [m|?|]; [| | done];
    cbn [shift] in *; simpl_bind; simpl_bind in H.
  - rewrite readApplicationExtension_frame by (intros E; by rewrite E in H).
    destruct (readApplicationExtension d m) as [[ext k]|?|]; [done | | done].
    cbn [shift_snd] in *.
    rewrite readGraphicRenderingBlock_frame by (intros E; by rewrite E in H).
    destruct (readGraphicRenderingBlock d m) as [k|?|]; [done | | done].
    cbn [shift] in *. revert H. frame_steps pre post. done.
  - rewrite readApplicationExtension_frame by (intros E; by rewrite E in H).
    destruct (readApplicationExtension d idx) as [[ext k]|?|]; [done | | done].
    cbn [shift_snd] in *.
    rewrite readGraphicRenderingBlock_frame by (intros E; by rewrite E in H).
    by destruct (readGraphicRenderingBlock d idx) as [k|?|].
Qed.

Ltac frame_any pre post :=
  repeat match goal with
  | |- context [byteAt ?d ?i] =>
      is_var d;
      let E := fresh "E" in
      let b := fresh "b" in
      destruct (byteAt d i) as [b|?|] eqn:E;
      [ let E' := fresh "E'" in
        pose proof (byteAt_frame pre d post _ _ E) as E';
        rewrite ?Nat.add_assoc in E'; rewrite ?E'; clear E'
      | exfalso; exact (byteAt_not_Err _ _ _ E)
      | ];
      simpl_bind
  end.

Lemma readHeader_frame pre d post idx :
  readHeader d idx ≠ Panic →
  readHeader (pre ++ d ++ post) (length pre + idx)
  = shift_snd (length pre) (readHeader d idx).
Proof.
  unfold readHeader, orElse, andAlso, isByte, isntByte. simpl_bind.
  frame_any pre post.
  all: repeat match goal with
         | |- context [neb ?a ?b] => destruct (neb a b); simpl_bind
         | |- context [eqb ?a ?b] => destruct (eqb a b); simpl_bind
         end.
  all: try done.
  all: intros _; cbn; do 2 f_equal; lia.
Qed.

Lemma readLogicalScreenDescriptor_frame pre d post idx :
  readLogicalScreenDescriptor d idx ≠ Panic →
  readLogicalScreenDescriptor (pre ++ d ++ post) (length pre + idx)
  = shift_snd (length pre) (readLogicalScreenDescriptor d idx).
Proof.
  unfold readLogicalScreenDescriptor. frame_steps pre post.
  intros _; cbn; do 2 f_equal; lia.
Qed.

(** ** A byte that starts no block *)

Lemma readApplicationExtension_no_introducer data idx b :
  data !! idx = Some b → b ≠ extension →
  readApplicationExtension data idx = Err NoExtensionIntroducer.
Proof.
  intros Hb Hne. unfold readApplicationExtension.
  apply byteAt_Ok in Hb. rewrite Hb. simpl_bind.
  apply neb_true in Hne. by rewrite Hne.
Qed.

Lemma readGraphicBlock_no_block data idx b :
  data !! idx = Some b → b ≠ extension → b ≠ x2c →
  readGraphicBlock data idx
  = Err (UnableToReadGraphicRenderingBlock NotGraphicRenderingBlock).
Proof.
  intros Hb Hne Hni.
  pose proof (readApplicationExtension_no_introducer _ _ _ Hb Hne) as Happ.
  unfold readGraphicBlock, readGraphicControlExtension.
  apply byteAt_Ok in Hb. apply neb_true in Hne, Hni.
  rewrite Hb. simpl_bind. rewrite Hne. simpl_bind. rewrite Happ.
  unfold readGraphicRenderingBlock, readTableBasedImage, readPlainTextExtension.
  rewrite !Hb. simpl_bind. by rewrite Hne, Hni.
Qed.

Lemma readTrailer_at data idx :
  data !! idx = Some trailer → readTrailer data idx = Ok (idx + 1).
Proof.
  intros Hb. unfold readTrailer. apply byteAt_Ok in Hb. rewrite Hb. simpl_bind.
  by rewrite (proj2 (neb_false trailer trailer)).
Qed.

Lemma dispatch_at_trailer conf data idx gs :
  data !! idx = Some trailer →
  dispatch conf data idx gs = trailerFound conf data idx (idx + 1) gs.
Proof.
  intros Hb. unfold dispatch, readSpecialPurposeBlock.
  rewrite (readApplicationExtension_no_introducer _ _ _ Hb) by done.
  rewrite (readGraphicBlock_no_block _ _ _ Hb) by done.
  by rewrite readTrailer_at.
Qed.

(** A Graphic Block at [idx] is consumed by the dispatcher, as such or as a
    Special-Purpose Block, up to the same offset. *)
Lemma readGraphicBlock_Ok_special data idx n :
  readGraphicBlock data idx = Ok n →
  readSpecialPurposeBlock data idx = Ok n ∨
  ∃ e, readSpecialPurposeBlock data idx = Err e.
Proof.
  unfold readGraphicBlock, readSpecialPurposeBlock. intros H.
  destruct (readGraphicControlExtension data idx) as [m|?|] eqn:E1;
    simpl_bind in H; try discriminate H.
  - apply readGraphicControlExtension_Ok in E1 as (-> & ? & H0 & H1).
    right. unfold readApplicationExtension.
    apply byteAt_Ok in H0, H1. rewrite H0. simpl_bind.
    rewrite (proj2 (neb_false extension extension)) by done.
    rewrite H1. simpl_bind. eauto.
  - destruct (readApplicationExtension data idx) as [[ext k]|?|] eqn:E2;
      try discriminate H.
    + left. by injection H as <-.
    + eauto.
Qed.

Lemma dispatch_block conf data idx gs n :
  readGraphicBlock data idx = Ok n →
  dispatch conf data idx gs = Continue data n gs.
Proof.
  intros H. unfold dispatch.
  destruct (readGraphicBlock_Ok_special _ _ _ H) as [-> | [e ->]]; [done |].
  by rewrite H.
Qed.

(** ** One iteration *)

Lemma trailerFound_Continue conf data idx gs d' i' g' :
  trailerFound conf data idx (idx + 1) gs = Continue d' i' g' →
  i' = idx ∧ d' = <[idx := extension]> data ∧
  idx + 1 < length data ∧ reprocess conf = true ∧
  (∃ i, readGraphicBlock d' idx = Ok i) ∧
  g' = appendPatch (sawTrailer gs (length data - (idx + 1))) (thePatch idx).
Proof.
  unfold trailerFound. cbn [GS.bytesOutstanding sawTrailer].
  destruct (idx + 1 <? length data) eqn:Hlt.
  - apply Nat.ltb_lt in Hlt.
    destruct (0 <? _) eqn:Hpos; cbn [andb]; [| done].
    destruct (reprocess conf); [| done].
    destruct (readGraphicBlock _ idx) as [i|?|] eqn:E; try done.
    intros [= <- <- <-]. eauto 10.
  - done.
Qed.

Lemma dispatch_Continue conf data idx gs d' i' g' :
  dispatch conf data idx gs = Continue d' i' g' →
  (d' = data ∧ g' = gs ∧ idx + 12 ≤ i' ≤ length data ∧
   (data !! idx = Some x2c ∨ data !! idx = Some extension)) ∨
  (data !! idx = Some trailer ∧
   i' = idx ∧ d' = <[idx := extension]> data ∧
   idx + 1 < length data ∧ reprocess conf = true ∧
   (∃ i, readGraphicBlock d' idx = Ok i) ∧
   g' = appendPatch (sawTrailer gs (length data - (idx + 1))) (thePatch idx)).
Proof.
  unfold dispatch.
  destruct (readSpecialPurposeBlock data idx) as [n|?|] eqn:E1; [| | done].
  { intros [= <- <- <-]. left.
    apply readSpecialPurposeBlock_Ok in E1 as (? & ? & ?).
    repeat split; try done; try lia. by right. }
  destruct (readGraphicBlock data idx) as [n|?|] eqn:E2; [| | done].
  { intros [= <- <- <-]. left.
    apply readGraphicBlock_Ok in E2 as (? & ?). repeat split; done || lia. }
  destruct (readTrailer data idx) as [n|?|] eqn:E3; [| done | done].
  apply readTrailer_Ok in E3 as (-> & ? & ?).
  intros Hc. right. split; [done |]. by apply trailerFound_Continue in Hc.
Qed.

Lemma trailerFound_Return conf data idx gs r d' g' :
  trailerFound conf data idx (idx + 1) gs = Return r d' g' →
  d' = data ∧
  g' = sawTrailer gs (if idx + 1 <? length data then length data - (idx + 1) else 0) ∧
  (r = Ok (idx + 1) ∨ r = Panic).
Proof.
  unfold trailerFound. 
  destruct (_ && _).
  - destruct (readGraphicBlock _ idx) as [i|?|] eqn:E; try done;
    intros [= <- <- <-]; eauto.
  - intros [= <- <- <-]; eauto.
Qed.

Lemma dispatch_Return conf data idx gs r d' g' :
  dispatch conf data idx gs = Return r d' g' →
  d' = data ∧
  ((g' = gs ∧ ∀ n, r ≠ Ok n) ∨
   (data !! idx = Some trailer ∧
    g' = sawTrailer gs (if idx + 1 <? length data then length data - (idx + 1) else 0) ∧
    (r = Ok (idx + 1) ∨ r = Panic))).
Proof.
  unfold dispatch.
  destruct (readSpecialPurposeBlock data idx) as [n|?|] eqn:E1; [done | |].
  2: { intros [= <- <- <-]. split; [done|]. by left. }
  destruct (readGraphicBlock data idx) as [n|?|] eqn:E2; [done | |].
  2: { intros [= <- <- <-]. split; [done|]. by left. }
  destruct (readTrailer data idx) as [n|?|] eqn:E3.
  - apply readTrailer_Ok in E3 as (-> & ? & ?).
    intros Hr. apply trailerFound_Return in Hr as (-> & -> & ?). split; [done|].
    right. done.
  - intros [= <- <- <-]. split; [done|]. by left.
  - intros [= <- <- <-]. split; [done|]. by left.
Qed.

(** ** The loop ends *)

Lemma remaining_le data idx : remaining data idx ≤ length data - idx + 1.
Proof. unfold remaining. case_decide; lia. Qed.

Lemma remaining_past data idx : length data ≤ idx → remaining data idx = 0.
Proof.
  intros H. unfold remaining. rewrite (lookup_ge_None_2 data idx H).
  rewrite decide_False by done. lia.
Qed.

Lemma dispatch_progress conf data idx gs d' i' g' :
  dispatch conf data idx gs = Continue d' i' g' →
  remaining d' i' < remaining data idx.
Proof.
  intros [(-> & -> & ? & ?) | (Ht & -> & -> & ? & ? & ? & ?)]%dispatch_Continue.
  - pose proof (remaining_le data i'). unfold remaining at 2. lia.
  - unfold remaining. rewrite length_insert.
    rewrite list_lookup_insert_eq by lia.
    rewrite Ht. repeat case_decide; try lia; try done.
Qed.

Lemma iterate_total fuel conf data idx gs :
  remaining data idx < fuel → is_Some (iterate fuel conf data idx gs).
Proof.
  revert data idx gs. induction fuel as [|fuel IH]; intros data idx gs Hf; [lia |].
  cbn [iterate]. destruct (dispatch conf data idx gs) as [d' i' g'|r d' g'] eqn:E.
  - apply IH. apply dispatch_progress in E. lia.
  - eauto.
Qed.

Lemma iterations_bound fuel conf data idx gs :
  remaining data idx < fuel →
  ∃ n, iterations fuel conf data idx gs = Some n ∧ n ≤ remaining data idx + 1.
Proof.
  revert data idx gs. induction fuel as [|fuel IH]; intros data idx gs Hf; [lia |].
  cbn [iterations]. destruct (dispatch conf data idx gs) as [d' i' g'|r d' g'] eqn:E.
  - apply dispatch_progress in E.
    destruct (IH d' i' g') as (n & -> & Hn); [lia |].
    exists (S n). split; [done | lia].
  - exists 1. split; [done | lia].
Qed.

Lemma iterate_mono fuel fuel' conf data idx gs x :
  iterate fuel conf data idx gs = Some x → fuel ≤ fuel' →
  iterate fuel' conf data idx gs = Some x.
Proof.
  revert fuel' data idx gs. induction fuel as [|fuel IH]; intros fuel' data idx gs; [done |].
  intros H Hle. destruct fuel' as [|fuel']; [lia |]. cbn [iterate] in *.
  destruct (dispatch conf data idx gs); [| done]. apply IH; [done | lia].
Qed.

Lemma iterate_advance k fuel conf data idx gs d i g :
  advance k conf data idx gs = Some (d, i, g) →
  iterate (k + fuel) conf data idx gs = iterate fuel conf d i g.
Proof.
  revert data idx gs. induction k as [|k IH]; intros data idx gs; cbn [advance].
  - by intros [= -> -> ->].
  - cbn [Nat.add iterate]. destruct (dispatch conf data idx gs); [| done]. apply IH.
Qed.

Lemma advance_remaining k conf data idx gs d i g :
  advance k conf data idx gs = Some (d, i, g) →
  remaining d i + k ≤ remaining data idx ∧ length d = length data.
Proof.
  revert data idx gs. induction k as [|k IH]; intros data idx gs; cbn [advance].
  - intros [= -> -> ->]. lia.
  - destruct (dispatch conf data idx gs) as [d' i' g'|] eqn:E; [| done].
    intros [H1 H2]%IH. pose proof (dispatch_progress _ _ _ _ _ _ _ E).
    split; [lia |]. rewrite H2.
    apply dispatch_Continue in E as [(-> & _) | (_ & _ & -> & _)]; [done |].
    by rewrite length_insert.
Qed.

(** The loop started at [idx] gets to [i] after [k] rounds and returns
    there: this is what the call returns, when it was given the iterations
    it needs. *)
Lemma iterate_returns k fuel conf data idx gs d i g r d' g' :
  advance k conf data idx gs = Some (d, i, g) →
  dispatch conf d i g = Return r d' g' →
  remaining data idx < fuel →
  iterate fuel conf data idx gs = Some (r, d', g').
Proof.
  intros Hadv Hret Hfuel.
  destruct (iterate_total fuel conf data idx gs Hfuel) as [x Hx].
  rewrite Hx. f_equal.
  pose proof (iterate_mono _ (k + S fuel) _ _ _ _ _ Hx ltac:(lia)) as Hx'.
  rewrite (iterate_advance _ _ _ _ _ _ _ _ _ Hadv) in Hx'.
  cbn [iterate] in Hx'. rewrite Hret in Hx'. congruence.
Qed.

(** ** The start of the data blocks *)

Lemma readHeader_Ok data idx h n :
  readHeader data idx = Ok (h, n) → n = idx + 6 ∧ n ≤ length data.
Proof.
  unfold readHeader, orElse, andAlso, isByte, isntByte. simpl_bind.
  destruct (byteAt data idx) as [b0|?|] eqn:E0; simpl_bind; [| done | done].
  destruct (neb b0 "G"); simpl_bind; [done |].
  destruct (byteAt data (idx + 1)) as [b1|?|] eqn:E1; simpl_bind; [| done | done].
  destruct (neb b1 "I"); simpl_bind; [done |].
  destruct (byteAt data (idx + 2)) as [b2|?|] eqn:E2; simpl_bind; [| done | done].
  destruct (neb b2 "F"); simpl_bind; [done |].
  destruct (byteAt data (idx + 3)) as [b3|?|] eqn:E3; simpl_bind; [| done | done].
  destruct (eqb b3 "8"); simpl_bind; [| done].
  destruct (byteAt data (idx + 3 + 1)) as [b4|?|] eqn:E4; simpl_bind; [| done | done].
  destruct (byteAt data (idx + 3 + 2)) as [b5|?|] eqn:E5; simpl_bind.
  2: { exfalso. by eapply byteAt_not_Err. }
  - apply byteAt_lt in E5.
    destruct (eqb b4 "7"), (eqb b4 "9"), (eqb b5 "a"); simpl_bind;
      try done; intros [= <- <-]; lia.
  - destruct (eqb b4 "7"), (eqb b4 "9"); simpl_bind; done.
Qed.

Lemma readLogicalScreenDescriptor_Ok data idx sd n :
  readLogicalScreenDescriptor data idx = Ok (sd, n) →
  n = idx + 7 ∧ n ≤ length data ∧ GlobalColourTableSize sd ≤ 7.
Proof.
  unfold readLogicalScreenDescriptor. intros H. inv_steps H. tidy.
  cbn [GlobalColourTableSize]. repeat split; [lia | lia |].
  unfold band. clear. destruct b; vm_compute; lia.
Qed.

Lemma streamStart_Ok data gs idx gs0 :
  streamStart data gs = (Ok idx, gs0) →
  13 ≤ idx ∧ 13 ≤ length data ∧ gs0 = validated gs.
Proof.
  unfold streamStart.
  destruct (readHeader data 0) as [[h i1]|?|] eqn:E1; try done.
  apply readHeader_Ok in E1 as [-> ?].
  destruct (readLogicalScreenDescriptor data (0 + 6)) as [[sd i2]|?|] eqn:E2; try done.
  apply readLogicalScreenDescriptor_Ok in E2 as (-> & ? & ?).
  destruct (HasGlobalColourTable sd); unfold readGlobalColourTable;
    intros [= <- <-]; (split; [lia | split; [lia | done]]).
Qed.

Lemma iterate_enough conf data idx gs :
  2 ≤ idx → 0 < length data → is_Some (iterate (length data) conf data idx gs).
Proof.
  intros ??. apply iterate_total. pose proof (remaining_le data idx).
  destruct (decide (length data ≤ idx)) as [Hp|Hp]; [rewrite remaining_past by done |]; lia.
Qed.

(** The loop returns on every buffer and at every offset. *)
Lemma readDataBlocksAndTrailer_total conf data idx gs :
  is_Some (readDataBlocksAndTrailer conf data idx gs).
Proof. apply iterate_total. pose proof (remaining_le data idx). lia. Qed.

Lemma scanStream_total conf data gs : is_Some (scanStream conf data gs).
Proof.
  unfold scanStream. destruct (streamStart data gs) as [[idx|e|] gs0] eqn:E; [| done | done].
  apply streamStart_Ok in E as (? & ? & ->).
  destruct (readDataBlocksAndTrailer_total conf data idx (validated gs)) as [[[r d] g] ->].
  by destruct r.
Qed.

Lemma decodeGIF_total conf data gs : is_Some (decodeGIF conf data gs).
Proof.
  unfold decodeGIF. destruct (scanStream_total conf data gs) as [[[r d] g] ->].
  destruct r as [idx|e|]; [| done | done].
  destruct (negb _); [done |]. destruct (_ && _); [| done].
  by destruct (applyPatches _ _ _) as [[??]|?|].
Qed.

(** ** Invariants of the loop *)

Lemma iterate_invariant (P : list byte → gifstate → Prop) conf :
  (∀ d i g d' i' g', P d g → dispatch conf d i g = Continue d' i' g' → P d' g') →
  (∀ d i g r d' g', P d g → dispatch conf d i g = Return r d' g' → P d' g') →
  ∀ fuel d i g r d' g',
    P d g → iterate fuel conf d i g = Some (r, d', g') → P d' g'.
Proof.
  intros Hc Hr. induction fuel as [|fuel IH]; intros d i g r d' g' HP; [done |].
  cbn [iterate]. destruct (dispatch conf d i g) as [d1 i1 g1|r1 d1 g1] eqn:E.
  - apply IH. by eapply Hc.
  - intros [= <- <- <-]. by eapply Hr.
Qed.

Lemma applied_insert data idx p :
  applied data p → idx < length data → applied (<[idx := extension]> data) p.
Proof.
  intros (Hb & ? & ?) Hlt. split; [| done].
  destruct (decide (idx = index p)) as [->|Hne].
  - by rewrite list_lookup_insert_eq.
  - by rewrite list_lookup_insert_ne.
Qed.

Lemma dispatch_keeps_applied conf d i g :
  Forall (applied d) (GS.patches g) →
  match dispatch conf d i g with
  | Continue d' _ g' | Return _ d' g' => Forall (applied d') (GS.patches g')
  end.
Proof.
  intros HP. destruct (dispatch conf d i g) as [d' i' g'|r d' g'] eqn:E.
  - apply dispatch_Continue in E as [(-> & -> & _) | (_ & _ & -> & Hlt & _ & _ & ->)];
      [done |].
    cbn [GS.patches appendPatch sawTrailer]. apply Forall_app. split.
    + eapply Forall_impl; [exact HP |]. intros p Hp. apply applied_insert; [done | lia].
    + apply Forall_singleton. split; [| done].
      cbn [index thePatch]. apply list_lookup_insert_eq. lia.
  - apply dispatch_Return in E as (-> & [(-> & _) | (_ & -> & _)]); done.
Qed.

Lemma readDataBlocksAndTrailer_applied conf data idx gs r d' g' :
  Forall (applied data) (GS.patches gs) →
  readDataBlocksAndTrailer conf data idx gs = Some (r, d', g') →
  Forall (applied d') (GS.patches g').
Proof.
  unfold readDataBlocksAndTrailer. intros HP H.
  eapply (iterate_invariant (λ d g, Forall (applied d) (GS.patches g)));
    [| | exact HP | exact H].
  - intros d i g d1 i1 g1 Hd E. pose proof (dispatch_keeps_applied conf d i g Hd) as K.
    by rewrite E in K.
  - intros d i g r1 d1 g1 Hd E. pose proof (dispatch_keeps_applied conf d i g Hd) as K.
    by rewrite E in K.
Qed.

Lemma streamStart_patches data gs :
  GS.patches (streamStart data gs).2 = GS.patches gs.
Proof.
  unfold streamStart.
  destruct (readHeader data 0) as [[??]|?|]; [| done | done].
  destruct (readLogicalScreenDescriptor _ _) as [[sd ?]|?|]; [| done | done].
  by destruct (HasGlobalColourTable sd).
Qed.

Lemma scanStream_applied conf data gs r d' g' :
  GS.patches gs = [] →
  scanStream conf data gs = Some (r, d', g') →
  Forall (applied d') (GS.patches g').
Proof.
  unfold scanStream. intros Hnil.
  pose proof (streamStart_patches data gs) as Hp. rewrite Hnil in Hp.
  destruct (streamStart data gs) as [[idx|e|] gs0] eqn:E; cbn [snd] in Hp.
  - destruct (readDataBlocksAndTrailer _ _ _ _) as [[[r1 d1] g1]|] eqn:E1; [| done].
    intros H. eapply (readDataBlocksAndTrailer_applied _ _ _ _ r1 d' g').
    + rewrite Hp. constructor.
    + destruct r1; injection H as <- <- <-; exact E1.
  - intros [= <- <- <-]. rewrite Hp. constructor.
  - intros [= <- <- <-]. rewrite Hp. constructor.
Qed.

Lemma applyPatches_all_skipped data ps skipped :
  Forall (applied data) ps →
  applyPatches data ps skipped = Ok (data, skipped ++ ps).
Proof.
  revert skipped. induction ps as [|p ps IH]; intros skipped HP; cbn [applyPatches].
  - by rewrite app_nil_r.
  - apply Forall_cons in HP as [(Hb & Hnew & Hold) HP].
    apply byteAt_Ok in Hb. rewrite Hb. simpl_bind. rewrite Hold.
    replace (eqb extension trailer) with false by done.
    rewrite IH by done. by rewrite <- app_assoc.
Qed.

(** C10.  The ledger is started empty, as [main] does.  Whatever offset the
    scan ends at, every patch in the ledger has the byte at its index equal
    to the new value 0x21 already, because [readDataBlocksAndTrailer]
    writes the buffer before it appends the patch; so the loop that writes
    the output finds no byte equal to the old value 0x3b, skips every patch,
    and the bytes written are the buffer as the scan left it. *)
Theorem recorded_patches_are_skipped conf data gs n d' g' :
  GS.patches gs = [] →
  scanStream conf data gs = Some (Ok n, d', g') →
  Forall (λ p, d' !! index p = Some extension ∧
               newValue p = extension ∧ oldValue p = trailer) (GS.patches g') ∧
  applyPatches d' (GS.patches g') [] = Ok (d', GS.patches g') ∧
  (n = length d' → write conf = true → outFile conf ≠ ""%string →
   decodeGIF conf data gs =
   Some {| returned := Ok tt; buffer := d'; state := g'; written := Some d' |}).
Proof.
  intros Hnil Hscan.
  pose proof (scanStream_applied _ _ _ _ _ _ Hnil Hscan) as HP.
  pose proof (applyPatches_all_skipped d' _ [] HP) as Happly. cbn [app] in Happly.
  split; [exact HP |]. split; [exact Happly |].
  intros -> Hw Hout. unfold decodeGIF. rewrite Hscan, Nat.eqb_refl, Hw. cbn [negb andb].
  destruct (outFile conf) as [|c rest]; [done |]. cbn [String.length Nat.ltb Nat.leb].
  by rewrite Happly.
Qed.

Lemma recorded_patches_are_skipped_witness :
  applyPatches (<[28 := extension]> ex_forged) [thePatch 28] []
  = Ok (<[28 := extension]> ex_forged, [thePatch 28]).
Proof.
  apply (recorded_patches_are_skipped (ex_conf true) ex_forged new_gifstate 52
           (<[28 := extension]> ex_forged)
           {| GS.validSignature := true; GS.readTrailer := true;
              GS.bytesOutstanding := 0; GS.patches := [thePatch 28] |}).
  - reflexivity.
  - vm_compute. reflexivity.
Defined.

Lemma trailerFound_failed conf data idx gs :
  (∀ i, readGraphicBlock (<[idx := extension]> data) idx ≠ Ok i) →
  ∃ r, trailerFound conf data idx (idx + 1) gs =
       Return r data
         (sawTrailer gs (if idx + 1 <? length data then length data - (idx + 1) else 0))
       ∧ (r = Ok (idx + 1) ∨ r = Panic).
Proof.
  intros Hfail. unfold trailerFound. destruct (_ && _); [| eauto].
  destruct (readGraphicBlock _ idx) as [i|e|] eqn:E; [by destruct (Hfail i) | eauto | eauto].
Qed.

(** C5.  Whatever an iteration does, the buffer it hands on is the one it
    was given, unless the re-parse of the copy succeeded, and then it
    differs by the one byte at [idx].  At a trailer whose re-parse does not
    succeed, the buffer and the ledger are unchanged and the state is the
    one of a run with recovery off, in particular [bytesOutstanding] as it
    was recorded when the trailer was found; when the re-parse returns an
    error the whole iteration is that of a run with recovery off. *)
Theorem failed_recovery_changes_nothing conf data idx gs :
  (bufferAfter (dispatch conf data idx gs) = data ∨
   (∃ i, readGraphicBlock (<[idx := extension]> data) idx = Ok i) ∧
   data !! idx = Some trailer ∧
   bufferAfter (dispatch conf data idx gs) = <[idx := extension]> data) ∧
  (data !! idx = Some trailer →
   (∀ i, readGraphicBlock (<[idx := extension]> data) idx ≠ Ok i) →
   bufferAfter (dispatch conf data idx gs) = data ∧
   GS.patches (stateAfter (dispatch conf data idx gs)) = GS.patches gs ∧
   stateAfter (dispatch conf data idx gs)
   = stateAfter (dispatch (withoutReprocess conf) data idx gs) ∧
   ((∃ e, readGraphicBlock (<[idx := extension]> data) idx = Err e) →
    dispatch conf data idx gs = dispatch (withoutReprocess conf) data idx gs)).
Proof.
  split.
  - destruct (dispatch conf data idx gs) as [d' i' g'|r d' g'] eqn:E; cbn [bufferAfter].
    + apply dispatch_Continue in E as [(-> & _) | (? & _ & -> & _ & _ & ? & _)]; eauto.
    + apply dispatch_Return in E as (-> & _). by left.
  - intros Ht Hfail. rewrite !dispatch_at_trailer by done.
    assert ((∃ e, readGraphicBlock (<[idx := extension]> data) idx = Err e) →
            trailerFound conf data idx (idx + 1) gs
            = trailerFound (withoutReprocess conf) data idx (idx + 1) gs) as Hsame.
    { intros [e He]. unfold trailerFound. rewrite He.
      cbn [reprocess withoutReprocess]. rewrite andb_false_r.
      by destruct (_ && _). }
    destruct (trailerFound_failed conf data idx gs Hfail) as (r & E & Hr).
    destruct (trailerFound_failed (withoutReprocess conf) data idx gs Hfail)
      as (r' & E' & Hr').
    split; [by rewrite E |]. split; [by rewrite E |]. split; [by rewrite E, E' |].
    exact Hsame.
Qed.

Lemma failed_recovery_changes_nothing_witness :
  bufferAfter (dispatch (ex_conf true) ex_trailing 28 new_gifstate) = ex_trailing ∧
  GS.patches (stateAfter (dispatch (ex_conf true) ex_trailing 28 new_gifstate)) = [].
Proof.
  destruct (failed_recovery_changes_nothing (ex_conf true) ex_trailing 28 new_gifstate)
    as [_ H].
  destruct H as (Hb & Hp & _).
  - reflexivity.
  - intros i. vm_compute. discriminate.
  - split; [exact Hb | exact Hp].
Defined.

(** C4 as stated has the dispatcher go on at the offset that the parse of
    the copy returned.  In [ex_forged] the copy is parsed from 28 up to 51,
    and the dispatcher goes on at 28. *)
Lemma resume_offset_counterexample :
  readGraphicBlock (<[28 := extension]> ex_forged) 28 = Ok 51 ∧
  ∃ d g, dispatch (ex_conf true) ex_forged 28 new_gifstate = Continue d 28 g ∧ 28 ≠ 51.
Proof.
  split; [vm_compute; reflexivity |].
  eexists _, _. split; [vm_compute; reflexivity | lia].
Qed.

(** C4, amended.  When the re-parse of the copy succeeds for the trailer at
    [idx], the byte is written to the buffer, the patch (idx, 0x3b, 0x21)
    is appended to the ledger, and the loop continues at [idx] itself, on
    the patched buffer; the next iteration parses the recovered block a
    second time and moves to the offset that the re-parse had returned. *)
Theorem recovery_resumes_at_trailer conf data idx gs i :
  data !! idx = Some trailer → idx + 1 < length data → reprocess conf = true →
  readGraphicBlock (<[idx := extension]> data) idx = Ok i →
  let data' := <[idx := extension]> data in
  let gs' := appendPatch (sawTrailer gs (length data - (idx + 1))) (thePatch idx) in
  dispatch conf data idx gs = Continue data' idx gs' ∧
  data' !! idx = Some extension ∧
  GS.patches gs' = GS.patches gs ++
    [{| index := idx; oldValue := trailer; newValue := extension |}] ∧
  dispatch conf data' idx gs' = Continue data' i gs'.
Proof.
  intros Ht Hlt Hre Hok data' gs'. repeat split.
  - rewrite dispatch_at_trailer by done. unfold trailerFound.
    rewrite (proj2 (Nat.ltb_lt _ _) Hlt). cbn [GS.bytesOutstanding sawTrailer].
    rewrite (proj2 (Nat.ltb_lt 0 _)) by lia. rewrite Hre. cbn [andb].
    by rewrite Hok.
  - apply list_lookup_insert_eq. lia.
  - by apply dispatch_block.
Qed.

Lemma recovery_resumes_at_trailer_witness :
  dispatch (ex_conf true) (<[28 := extension]> ex_forged) 28
    (appendPatch (sawTrailer new_gifstate (length ex_forged - (28 + 1))) (thePatch 28))
  = Continue (<[28 := extension]> ex_forged) 51
    (appendPatch (sawTrailer new_gifstate (length ex_forged - (28 + 1))) (thePatch 28)).
Proof.
  apply (recovery_resumes_at_trailer (ex_conf true) ex_forged 28 new_gifstate 51).
  - reflexivity.
  - vm_compute. lia.
  - reflexivity.
  - vm_compute. reflexivity.
Defined.

Lemma scanStream_returns k conf data gs d i g r d' g' :
  scanningAt k conf data gs = Some (d, i, g) →
  dispatch conf d i g = Return r d' g' →
  scanStream conf data gs = Some (inDataBlocks r, d', g').
Proof.
  unfold scanningAt, scanStream.
  destruct (streamStart data gs) as [[idx|e|] gs0] eqn:E; [| done | done].
  intros Hadv Hret. apply streamStart_Ok in E as (? & ? & ->).
  unfold readDataBlocksAndTrailer.
  rewrite (iterate_returns _ (length data + 2) _ _ _ _ _ _ _ _ _ _ Hadv Hret).
  - by destruct r.
  - pose proof (remaining_le data idx). lia.
Qed.

(** C2 as stated has the parse report success.  In [ex_trailing] the
    trailer at 28 is followed by one byte, recovery is off, and [decodeGIF]
    returns the error "failed to parse entire image". *)
Lemma early_trailer_counterexample :
  scanningAt 1 (ex_conf false) ex_trailing new_gifstate
  = Some (ex_trailing, 28, validated new_gifstate) ∧
  readTrailer ex_trailing 28 = Ok 29 ∧ 29 < length ex_trailing ∧
  ∃ r, decodeGIF (ex_conf false) ex_trailing new_gifstate = Some r ∧
       returned r = Err (FailedToParseEntireImage 29 30) ∧
       returned r ≠ Ok tt.
Proof.
  split; [vm_compute; reflexivity |]. split; [vm_compute; reflexivity |].
  split; [vm_compute; lia |].
  eexists. split; [vm_compute; reflexivity |]. split; [reflexivity | discriminate].
Qed.

(** C2, amended.  When the loop inside [decodeGIF] finds a trailer at [T]
    with bytes after it, and recovery is off or the re-parse of the copy
    returns an error, [readDataBlocksAndTrailer] returns the offset after
    the trailer without error, with [readTrailer] set, [bytesOutstanding]
    positive and the ledger as it was; [decodeGIF] then returns the error
    "failed to parse entire image", since that offset is not the length of
    the buffer. *)
Theorem early_trailer_is_rejected k conf data gs d T g :
  scanningAt k conf data gs = Some (d, T, g) →
  d !! T = Some trailer → T + 1 < length d →
  (reprocess conf = false ∨
   ∃ e, readGraphicBlock (<[T := extension]> d) T = Err e) →
  let g' := sawTrailer g (length d - (T + 1)) in
  readTrailer d T = Ok (T + 1) ∧
  scanStream conf data gs = Some (Ok (T + 1), d, g') ∧
  GS.readTrailer g' = true ∧ 0 < GS.bytesOutstanding g' ∧
  GS.patches g' = GS.patches g ∧
  decodeGIF conf data gs =
  Some {| returned := Err (FailedToParseEntireImage (T + 1) (length d));
          buffer := d; state := g'; written := None |}.
Proof.
  intros Hat Ht Hlt Hdecl g'.
  assert (dispatch conf d T g = Return (Ok (T + 1)) d g') as Hret.
  { rewrite dispatch_at_trailer by done. unfold trailerFound.
    rewrite (proj2 (Nat.ltb_lt _ _) Hlt). fold g'.
    destruct Hdecl as [-> | [e ->]]; [by rewrite andb_false_r |].
    by destruct (_ && _). }
  pose proof (scanStream_returns _ _ _ _ _ _ _ _ _ _ Hat Hret) as Hscan.
  cbn [inDataBlocks] in Hscan.
  split; [by apply readTrailer_at |]. split; [exact Hscan |].
  split; [done |]. split; [cbn; lia |]. split; [done |].
  unfold decodeGIF. rewrite Hscan.
  by rewrite (proj2 (Nat.eqb_neq (T + 1) (length d))) by lia.
Qed.

Lemma early_trailer_is_rejected_witness :
  decodeGIF (ex_conf true) ex_trailing new_gifstate =
  Some {| returned := Err (FailedToParseEntireImage (28 + 1) (length ex_trailing));
          buffer := ex_trailing;
          state := sawTrailer (validated new_gifstate) (length ex_trailing - (28 + 1));
          written := None |}.
Proof.
  apply (early_trailer_is_rejected 1 (ex_conf true) ex_trailing new_gifstate
           ex_trailing 28 (validated new_gifstate)).
  - vm_compute. reflexivity.
  - reflexivity.
  - vm_compute. lia.
  - right. eexists. vm_compute. reflexivity.
Defined.

(** ** The order of the alternatives *)

Lemma dispatch_priority conf data idx gs :
  (∀ n, readSpecialPurposeBlock data idx = Ok n →
        dispatch conf data idx gs = Continue data n gs) ∧
  (∀ e n, readSpecialPurposeBlock data idx = Err e →
          readGraphicBlock data idx = Ok n →
          dispatch conf data idx gs = Continue data n gs) ∧
  (∀ e1 e2, readSpecialPurposeBlock data idx = Err e1 →
            readGraphicBlock data idx = Err e2 →
            dispatch conf data idx gs =
            match readTrailer data idx with
            | Ok nextIdx => trailerFound conf data idx nextIdx gs
            | Err _ => Return (Err (UnableToReadDataBlocks idx (length data))) data gs
            | Panic => Return Panic data gs
            end).
Proof.
  unfold dispatch. repeat split.
  - by intros n ->.
  - by intros e n -> ->.
  - by intros e1 e2 -> ->.
Qed.

(** A Graphic Control Extension followed by something that is neither an
    Application Extension nor a Graphic-Rendering Block, with the second of
    the two bytes that go into the message inside the buffer. *)
Lemma readGraphicBlock_control_only conf data idx gs m ea e b1 :
  readGraphicControlExtension data idx = Ok m →
  readApplicationExtension data m = Err ea →
  readGraphicRenderingBlock data m = Err e →
  data !! (m + 1) = Some b1 →
  ∃ b0,
    readGraphicBlock data idx = Err (GraphicControlWithoutRendering e b0 b1) ∧
    readTrailer data idx = Err NotTrailer ∧
    dispatch conf data idx gs
    = Return (Err (UnableToReadDataBlocks idx (length data))) data gs.
Proof.
  intros Hgce Happ Hrend H1.
  pose proof (readGraphicControlExtension_Ok _ _ _ Hgce) as (-> & _ & Hi & Hl).
  destruct (data !! (idx + 8)) as [b0|] eqn:H0.
  2: { unfold readApplicationExtension, byteAt in Happ. by rewrite H0 in Happ. }
  exists b0. apply byteAt_Ok in H0, H1.
  assert (readGraphicBlock data idx = Err (GraphicControlWithoutRendering e b0 b1)) as Hgb.
  { unfold readGraphicBlock. rewrite Hgce. simpl_bind.
    rewrite Happ, Hrend, H0, H1. done. }
  assert (readTrailer data idx = Err NotTrailer) as Htr.
  { unfold readTrailer. apply byteAt_Ok in Hi. by rewrite Hi. }
  split; [done |]. split; [done |].
  unfold dispatch. rewrite Hgb, Htr.
  unfold readSpecialPurposeBlock, readApplicationExtension.
  apply byteAt_Ok in Hi, Hl. rewrite Hi. simpl_bind.
  rewrite (proj2 (neb_false extension extension)) by done.
  rewrite Hl. simpl_bind. by replace (neb xf9 xff) with true by done.
Qed.

(** C8.  In [ex_cut_short] a Graphic Control Extension is read at 13 and
    no Graphic-Rendering Block follows at 21; the buffer ends at 22.
    [readGraphicBlock] evaluates [data[idx+1]] for its error message and
    panics, where the claim has it fail and the dispatcher try the trailer
    ([dispatch_priority] and [readGraphicBlock_control_only] are the claim
    for buffers that hold that byte). *)
Theorem control_without_rendering_panics :
  readGraphicControlExtension ex_cut_short 13 = Ok 21 ∧
  readGraphicRenderingBlock ex_cut_short 21 = Err NotGraphicRenderingBlock ∧
  readGraphicBlock ex_cut_short 13 = Panic ∧
  dispatch (ex_conf false) ex_cut_short 13 (validated new_gifstate)
  = Return Panic ex_cut_short (validated new_gifstate) ∧
  decodeGIF (ex_conf false) ex_cut_short new_gifstate =
  Some {| returned := Panic; buffer := ex_cut_short;
          state := validated new_gifstate; written := None |}.
Proof. repeat split; vm_compute; reflexivity. Qed.

Lemma Exp2_pos n : 0 < Exp2 n.
Proof. unfold Exp2. induction n; cbn; lia. Qed.

Lemma productions_advance data idx n :
  (∀ h, readHeader data idx = Ok (h, n) → idx < n) ∧
  (∀ sd, readLogicalScreenDescriptor data idx = Ok (sd, n) → idx < n) ∧
  (∀ sd, readGlobalColourTable sd idx = Ok n → idx < n) ∧
  (∀ payload, readDataSubBlocks data idx = Ok (payload, n) → idx < n) ∧
  (∀ ext, readApplicationExtension data idx = Ok (ext, n) → idx < n) ∧
  (readSpecialPurposeBlock data idx = Ok n → idx < n) ∧
  (readGraphicControlExtension data idx = Ok n → idx < n) ∧
  (readTableBasedImage data idx = Ok n → idx < n) ∧
  (readPlainTextExtension data idx = Ok n → idx < n) ∧
  (readGraphicRenderingBlock data idx = Ok n → idx < n) ∧
  (readGraphicBlock data idx = Ok n → idx < n) ∧
  (readTrailer data idx = Ok n → idx < n).
Proof.
  repeat split.
  - intros h H%readHeader_Ok. lia.
  - intros sd H%readLogicalScreenDescriptor_Ok. lia.
  - intros sd [= <-]. pose proof (Exp2_pos (GlobalColourTableSize sd + 1)). lia.
  - intros p H%readDataSubBlocks_Ok. lia.
  - intros ext H%readApplicationExtension_Ok. lia.
  - intros H%readSpecialPurposeBlock_Ok. lia.
  - intros H%readGraphicControlExtension_Ok. lia.
  - intros H%readTableBasedImage_Ok. lia.
  - intros H%readPlainTextExtension_Ok. lia.
  - intros H%readGraphicRenderingBlock_Ok. lia.
  - intros H%readGraphicBlock_Ok. lia.
  - intros H%readTrailer_Ok. lia.
Qed.

Lemma iterations_in_stream conf data gs idx gs0 :
  streamStart data gs = (Ok idx, gs0) →
  ∃ n, iterations (length data) conf data idx gs0 = Some n ∧ n ≤ length data.
Proof.
  intros (? & ? & _)%streamStart_Ok.
  pose proof (remaining_le data idx).
  destruct (iterations_bound (length data) conf data idx gs0) as (n & Hn & Hle).
  - destruct (decide (length data ≤ idx)) as [Hp|Hp];
      [rewrite remaining_past by done |]; lia.
  - exists n. split; [done |].
    destruct (decide (length data ≤ idx)) as [Hp|Hp];
      [rewrite remaining_past in Hle by done |]; lia.
Qed.

(** C9.  [decodeGIF] returns for every buffer, configuration and state,
    the loop of [readDataBlocksAndTrailer] having run at most
    [length data] times.  An iteration that continues makes [remaining]
    smaller: it moves the offset forward, or, after a recovery, patches the
    byte at the offset, and then the next iteration moves the offset
    forward.  Every production that returns an offset returns a greater
    one. *)
Theorem parse_terminates conf data gs :
  is_Some (decodeGIF conf data gs) ∧
  (∀ idx gs0, streamStart data gs = (Ok idx, gs0) →
     is_Some (iterate (length data) conf data idx gs0) ∧
     ∃ n, iterations (length data) conf data idx gs0 = Some n ∧ n ≤ length data) ∧
  (∀ d idx g d' i' g',
     dispatch conf d idx g = Continue d' i' g' →
     remaining d' i' < remaining d idx ∧
     (idx < i' ∨
      i' = idx ∧ ∃ i, dispatch conf d' i' g' = Continue d' i g' ∧ idx < i)) ∧
  (∀ idx n,
     (∀ h, readHeader data idx = Ok (h, n) → idx < n) ∧
     (∀ sd, readLogicalScreenDescriptor data idx = Ok (sd, n) → idx < n) ∧
     (∀ sd, readGlobalColourTable sd idx = Ok n → idx < n) ∧
     (∀ payload, readDataSubBlocks data idx = Ok (payload, n) → idx < n) ∧
     (∀ ext, readApplicationExtension data idx = Ok (ext, n) → idx < n) ∧
     (readSpecialPurposeBlock data idx = Ok n → idx < n) ∧
     (readGraphicControlExtension data idx = Ok n → idx < n) ∧
     (readTableBasedImage data idx = Ok n → idx < n) ∧
     (readPlainTextExtension data idx = Ok n → idx < n) ∧
     (readGraphicRenderingBlock data idx = Ok n → idx < n) ∧
     (readGraphicBlock data idx = Ok n → idx < n) ∧
     (readTrailer data idx = Ok n → idx < n)).
Proof.
  split; [apply decodeGIF_total |]. split; [| split].
  - intros idx gs0 Hs. split; [| by eapply iterations_in_stream].
    apply streamStart_Ok in Hs as (? & ? & _). apply iterate_enough; lia.
  - intros d idx g d' i' g' Hc. split; [by eapply dispatch_progress |].
    apply dispatch_Continue in Hc as [(-> & -> & ? & _) | (_ & -> & -> & _ & _ & [i Hi] & _)].
    + left. lia.
    + right. split; [done |]. exists i. split; [by apply dispatch_block |].
      apply readGraphicBlock_Ok in Hi. lia.
  - intros idx n. apply productions_advance.
Qed.

Lemma parse_terminates_witness :
  iterations (length ex_forged) (ex_conf true) ex_forged 13 (validated new_gifstate)
  = Some 4 ∧ 4 ≤ length ex_forged.
Proof.
  destruct (parse_terminates (ex_conf true) ex_forged new_gifstate) as (_ & H & _).
  destruct (H 13 (validated new_gifstate)) as (_ & n & Hn & Hle).
  - reflexivity.
  - assert (n = 4) as -> by (vm_compute in Hn; congruence).
    split; [exact Hn | exact Hle].
Defined.

(** ** A block inside a stream *)

Lemma readGraphicBlock_inside pre block post :
  readGraphicBlock block 0 = Ok (length block) →
  readGraphicBlock (pre ++ block ++ post) (length pre)
  = Ok (length pre + length block).
Proof.
  intros H. pose proof (readGraphicBlock_frame pre block post 0) as F.
  rewrite H, Nat.add_0_r in F. by apply F.
Qed.

Lemma dispatch_trailer_end conf data gs :
  dispatch conf (data ++ [trailer]) (length data) gs
  = Return (Ok (length data + 1)) (data ++ [trailer]) (sawTrailer gs 0).
Proof.
  rewrite dispatch_at_trailer by apply list_lookup_middle, eq_refl.
  unfold trailerFound. rewrite length_app. cbn [length].
  by rewrite Nat.ltb_irrefl.
Qed.

Lemma forged_trailer_loop conf pre block1 block2 gs :
  readGraphicBlock block1 0 = Ok (length block1) →
  readGraphicBlock (extension :: block2) 0 = Ok (S (length block2)) →
  let data := pre ++ block1 ++ trailer :: block2 ++ [trailer] in
  let T := length pre + length block1 in
  let gs1 := sawTrailer gs (length block2 + 1) in
  advance 1 conf data (length pre) gs = Some (data, T, gs) ∧
  (reprocess conf = false →
   dispatch conf data T gs = Return (Ok (T + 1)) data gs1) ∧
  (reprocess conf = true →
   advance 3 conf data (length pre) gs
   = Some (<[T := extension]> data, length data - 1, appendPatch gs1 (thePatch T)) ∧
   dispatch conf (<[T := extension]> data) (length data - 1) (appendPatch gs1 (thePatch T))
   = Return (Ok (length data)) (<[T := extension]> data)
       (sawTrailer (appendPatch gs1 (thePatch T)) 0)).
Proof.
  intros H1 H2 data T gs1.
  assert (Hlen : length data = T + 1 + length block2 + 1).
  { unfold data, T. rewrite !length_app. cbn [length]. rewrite length_app. cbn. lia. }
  assert (HT : data !! T = Some trailer).
  { unfold data, T. rewrite app_assoc, <- length_app. apply list_lookup_middle, eq_refl. }
  assert (Hins : <[T := extension]> data
                 = (pre ++ block1) ++ (extension :: block2) ++ [trailer]).
  { unfold data, T. rewrite app_assoc, <- length_app.
    rewrite insert_app_r_alt by lia. by rewrite Nat.sub_diag. }
  assert (Hstep1 : dispatch conf data (length pre) gs = Continue data T gs).
  { apply dispatch_block. by apply readGraphicBlock_inside. }
  split; [cbn [advance]; by rewrite Hstep1 |].
  assert (Hfound : dispatch conf data T gs = trailerFound conf data T (T + 1) gs)
    by by apply dispatch_at_trailer.
  assert (Hspec : readGraphicBlock (<[T := extension]> data) T = Ok (T + S (length block2))).
  { rewrite Hins. unfold T. rewrite <- length_app.
    apply (readGraphicBlock_inside (pre ++ block1) (extension :: block2) [trailer] H2). }
  assert (Hout : (if T + 1 <? length data then length data - (T + 1) else 0)
                 = length block2 + 1).
  { rewrite (proj2 (Nat.ltb_lt _ _)) by lia. lia. }
  split.
  - intros Hoff. rewrite Hfound. unfold trailerFound. rewrite Hout. fold gs1.
    by rewrite Hoff, andb_false_r.
  - intros Hon.
    assert (Hstep2 : dispatch conf data T gs
                     = Continue (<[T := extension]> data) T (appendPatch gs1 (thePatch T))).
    { rewrite Hfound. unfold trailerFound. rewrite Hout. fold gs1.
      cbn [GS.bytesOutstanding gs1 sawTrailer]. rewrite (proj2 (Nat.ltb_lt 0 _)) by lia.
      rewrite Hon. cbn [andb]. by rewrite Hspec. }
    assert (Hstep3 : dispatch conf (<[T := extension]> data) T (appendPatch gs1 (thePatch T))
                     = Continue (<[T := extension]> data) (length data - 1)
                         (appendPatch gs1 (thePatch T))).
    { replace (length data - 1) with (T + S (length block2)) by lia.
      by apply dispatch_block. }
    split.
    + cbn [advance]. by rewrite Hstep1, Hstep2, Hstep3.
    + assert (<[T := extension]> data = (pre ++ block1 ++ extension :: block2) ++ [trailer]) as Hd.
      { rewrite Hins. by rewrite <- !app_assoc. }
      assert (length data - 1 = length (pre ++ block1 ++ extension :: block2)) as Hl.
      { rewrite !length_app. cbn [length]. unfold T in Hlen. lia. }
      rewrite Hd, Hl. rewrite dispatch_trailer_end. do 2 f_equal.
      rewrite <- Hl. lia.
Qed.

Lemma streamStart_inside hdr lsd table rest h sd gs :
  readHeader hdr 0 = Ok (h, length hdr) →
  readLogicalScreenDescriptor lsd 0 = Ok (sd, length lsd) →
  length table = (if HasGlobalColourTable sd
                  then 3 * 2 ^ (GlobalColourTableSize sd + 1) else 0) →
  streamStart (hdr ++ lsd ++ table ++ rest) gs
  = (Ok (length (hdr ++ lsd ++ table)), validated gs).
Proof.
  intros Hh Hs Ht. unfold streamStart.
  pose proof (readHeader_frame [] hdr (lsd ++ table ++ rest) 0) as Fh.
  rewrite Hh in Fh. cbn [app length Nat.add shift_snd] in Fh. rewrite Fh by done.
  pose proof (readLogicalScreenDescriptor_frame hdr lsd (table ++ rest) 0) as Fs.
  rewrite Hs, Nat.add_0_r in Fs. cbn [shift_snd] in Fs. rewrite Fs by done.
  rewrite !length_app, Ht. unfold readGlobalColourTable, Exp2.
  destruct (HasGlobalColourTable sd); do 2 f_equal; lia.
Qed.

(** A trailer byte put in front of a complete Graphic Block is not
    recovered: the copy has 0x21 at the trailer's offset and the block's
    own first byte, 0x21 or 0x2c, after it, which is no label. *)
Lemma readGraphicBlock_before_block pre block post n :
  readGraphicBlock block 0 = Ok n →
  readGraphicBlock (<[length pre := extension]> (pre ++ trailer :: block ++ post))
    (length pre)
  = Err (UnableToReadGraphicRenderingBlock NotGraphicRenderingBlock).
Proof.
  intros [_ Hfirst]%readGraphicBlock_Ok.
  rewrite insert_app_r_alt, Nat.sub_diag by lia. cbn [insert list_insert].
  assert (∃ b, byteAt (pre ++ extension :: block ++ post) (length pre + 1) = Ok b ∧
               (b = x2c ∨ b = extension)) as (b & Hb & Hor).
  { destruct block as [|b block]; [by destruct Hfirst |]. exists b. split.
    - apply byteAt_Ok. rewrite lookup_app_r by lia.
      by replace (length pre + 1 - length pre) with 1 by lia.
    - cbn in Hfirst. destruct Hfirst as [[= ->] | [= ->]]; eauto. }
  assert (byteAt (pre ++ extension :: block ++ post) (length pre) = Ok extension) as H0
    by apply byteAt_Ok, list_lookup_middle, eq_refl.
  unfold readGraphicBlock.
  assert (neb extension extension = false) as N0 by done.
  assert (neb extension x2c = true) as N1 by done.
  assert (neb b xf9 = true ∧ neb b xff = true ∧ neb b x01 = true) as (N2 & N3 & N4)
    by by destruct Hor as [-> | ->].
  assert (readGraphicControlExtension (pre ++ extension :: block ++ post) (length pre)
          = Err GraphicControlLabelMissing) as ->.
  { unfold readGraphicControlExtension. rewrite H0. simpl_bind. rewrite N0, Hb.
    simpl_bind. by rewrite N2. }
  simpl_bind.
  assert (readApplicationExtension (pre ++ extension :: block ++ post) (length pre)
          = Err NotApplicationExtension) as ->.
  { unfold readApplicationExtension. rewrite H0. simpl_bind. rewrite N0, Hb.
    simpl_bind. by rewrite N3. }
  unfold readGraphicRenderingBlock, readTableBasedImage, readPlainTextExtension.
  rewrite H0. simpl_bind. rewrite N0, N1, Hb. simpl_bind. by rewrite N4.
Qed.

(** C1 as stated takes [block2] to be a Graphic Block.  [ex_control ++
    ex_image] is one, and with recovery on the scan of header, screen,
    image, 0x3b, [block2], 0x3b still stops after the first 0x3b, with
    [len(block2) + 1] bytes outstanding and no patch: the copy is parsed
    from the trailer byte, not from the byte after it. *)
Lemma forged_trailer_counterexample :
  let block2 := ex_control ++ ex_image in
  let data := ex_header ++ ex_screen ++ ex_image ++ [x3b] ++ block2 ++ [x3b] in
  readGraphicBlock ex_image 0 = Ok (length ex_image) ∧
  readGraphicBlock block2 0 = Ok (length block2) ∧
  ∃ g, scanStream (ex_conf true) data new_gifstate = Some (Ok 29, data, g) ∧
       GS.bytesOutstanding g = length block2 + 1 ∧ GS.patches g = [] ∧
       ¬ (GS.bytesOutstanding g = 0 ∧
          GS.patches g = [{| index := 28; oldValue := x3b; newValue := x21 |}]).
Proof.
  cbv zeta. split; [vm_compute; reflexivity |]. split; [vm_compute; reflexivity |].
  eexists. split; [vm_compute; reflexivity |].
  split; [reflexivity |]. split; [reflexivity |]. intros [? _]. discriminate.
Qed.

(** C1, amended.  For every buffer header, screen descriptor, optional
    global colour table, [block1], 0x3b, [block2], 0x3b in which
    [readGraphicBlock] reads [block1] from its first byte to its last, and
    reads 0x21 followed by [block2] from the 0x21 to the last byte of
    [block2] (the first 0x3b stands where the block's Extension Introducer
    was): with recovery off the scan stops after the first 0x3b with
    [bytesOutstanding = len(block2) + 1] and an empty ledger; with recovery
    on it goes through both blocks to the end of the buffer, with
    [bytesOutstanding = 0] and the single patch at the offset of the first
    0x3b, old value 0x3b, new value 0x21.

    The condition is what the production reads, not the layout of the
    format.  A Plain Text Extension with its twelve bytes after the size
    byte is not read to its last byte, and with one for [block2] the scan
    with recovery on records the patch and then returns "unable to read
    data blocks" ([plain_text_stream_is_rejected]). *)
Theorem forged_trailer_recovery conf hdr lsd table block1 block2 h sd :
  readHeader hdr 0 = Ok (h, length hdr) →
  readLogicalScreenDescriptor lsd 0 = Ok (sd, length lsd) →
  length table = (if HasGlobalColourTable sd
                  then 3 * 2 ^ (GlobalColourTableSize sd + 1) else 0) →
  readGraphicBlock block1 0 = Ok (length block1) →
  readGraphicBlock (x21 :: block2) 0 = Ok (S (length block2)) →
  let data := hdr ++ lsd ++ table ++ block1 ++ x3b :: block2 ++ [x3b] in
  let T := length (hdr ++ lsd ++ table ++ block1) in
  (reprocess conf = false →
   scanStream conf data new_gifstate =
   Some (Ok (T + 1), data,
         {| GS.validSignature := true; GS.readTrailer := true;
            GS.bytesOutstanding := length block2 + 1; GS.patches := [] |})) ∧
  (reprocess conf = true →
   scanStream conf data new_gifstate =
   Some (Ok (length data), <[T := x21]> data,
         {| GS.validSignature := true; GS.readTrailer := true;
            GS.bytesOutstanding := 0;
            GS.patches := [{| index := T; oldValue := x3b; newValue := x21 |}] |})).
Proof.
  intros Hh Hs Ht H1 H2 data T.
  pose proof (streamStart_inside hdr lsd table (block1 ++ x3b :: block2 ++ [x3b])
                h sd new_gifstate Hh Hs Ht) as Hstart. fold data in Hstart.
  pose proof (forged_trailer_loop conf (hdr ++ lsd ++ table) block1 block2
                (validated new_gifstate) H1 H2) as Hloop.
  cbv zeta in Hloop. rewrite <- !app_assoc in Hloop. fold data in Hloop.
  replace (length (hdr ++ lsd ++ table) + length block1) with T in Hloop
    by (unfold T; rewrite !length_app; lia).
  destruct Hloop as (Hadv & Hoff & Hon).
  split.
  - intros Hc. specialize (Hoff Hc).
    assert (scanningAt 1 conf data new_gifstate = Some (data, T, validated new_gifstate))
      as Hat by (unfold scanningAt; by rewrite Hstart).
    exact (scanStream_returns _ _ _ _ _ _ _ _ _ _ Hat Hoff).
  - intros Hc. destruct (Hon Hc) as [Hadv3 Hret].
    assert (scanningAt 3 conf data new_gifstate
            = Some (<[T := extension]> data, length data - 1,
                    appendPatch (sawTrailer (validated new_gifstate) (length block2 + 1))
                      (thePatch T)))
      as Hat by (unfold scanningAt; by rewrite Hstart).
    exact (scanStream_returns _ _ _ _ _ _ _ _ _ _ Hat Hret).
Qed.

Lemma forged_trailer_recovery_witness :
  scanStream (ex_conf true) ex_forged new_gifstate =
  Some (Ok (length ex_forged), <[28 := x21]> ex_forged,
        {| GS.validSignature := true; GS.readTrailer := true;
           GS.bytesOutstanding := 0;
           GS.patches := [{| index := 28; oldValue := x3b; newValue := x21 |}] |}).
Proof.
  apply (forged_trailer_recovery (ex_conf true) ex_header ex_screen [] ex_image
           (tail ex_control ++ ex_image)
           {| Signature := "GIF"; Version := "89a" |}
           {| Width := 0; Height := 0; HasGlobalColourTable := false;
              ColourResolution := 1; GlobalColourTableSorted := false;
              GlobalColourTableSize := 0; BackgroundColourIndex := 0;
              PixelAspectRatio := 0 |}).
  - reflexivity.
  - reflexivity.
  - reflexivity.
  - vm_compute. reflexivity.
  - vm_compute. reflexivity.
  - reflexivity.
Defined.

(** ** Truncated buffers *)

Lemma shift_0 r : shift 0 r = r.
Proof. by destruct r. Qed.

Lemma shift_snd_0 {A} (r : outcome (A * nat)) : shift_snd 0 r = r.
Proof. by destruct r as [[??]|?|]. Qed.

(** A production that does not panic on a buffer gives the same result
    when bytes are added at the end. *)
Lemma readHeader_prefix p s idx :
  readHeader p idx = Panic ∨ readHeader (p ++ s) idx = readHeader p idx.
Proof.
  destruct (readHeader p idx) eqn:E; [right | right | by left];
    rewrite <- E; rewrite <- (shift_snd_0 (readHeader p idx));
    apply (readHeader_frame [] p s idx); congruence.
Qed.

Lemma readLogicalScreenDescriptor_prefix p s idx :
  readLogicalScreenDescriptor p idx = Panic ∨
  readLogicalScreenDescriptor (p ++ s) idx = readLogicalScreenDescriptor p idx.
Proof.
  destruct (readLogicalScreenDescriptor p idx) eqn:E; [right | right | by left];
    rewrite <- E; rewrite <- (shift_snd_0 (readLogicalScreenDescriptor p idx));
    apply (readLogicalScreenDescriptor_frame [] p s idx); congruence.
Qed.

Lemma readSpecialPurposeBlock_prefix p s idx :
  readSpecialPurposeBlock p idx = Panic ∨
  readSpecialPurposeBlock (p ++ s) idx = readSpecialPurposeBlock p idx.
Proof.
  destruct (readSpecialPurposeBlock p idx) eqn:E; [right | right | by left];
    rewrite <- E; rewrite <- (shift_0 (readSpecialPurposeBlock p idx));
    apply (readSpecialPurposeBlock_frame [] p s idx); congruence.
Qed.

Lemma readGraphicBlock_prefix p s idx :
  readGraphicBlock p idx = Panic ∨
  readGraphicBlock (p ++ s) idx = readGraphicBlock p idx.
Proof.
  destruct (readGraphicBlock p idx) eqn:E; [right | right | by left];
    rewrite <- E; rewrite <- (shift_0 (readGraphicBlock p idx));
    apply (readGraphicBlock_frame [] p s idx); congruence.
Qed.

Lemma readTrailer_prefix p s idx :
  readTrailer p idx = Panic ∨ readTrailer (p ++ s) idx = readTrailer p idx.
Proof.
  destruct (readTrailer p idx) eqn:E; [right | right | by left];
    rewrite <- E; rewrite <- (shift_0 (readTrailer p idx));
    apply (readTrailer_frame [] p s idx); congruence.
Qed.

Lemma dispatch_past_end conf data idx gs :
  length data ≤ idx → dispatch conf data idx gs = Return Panic data gs.
Proof.
  intros H. unfold dispatch, readSpecialPurposeBlock, readApplicationExtension.
  by rewrite (proj2 (byteAt_Panic data idx) H).
Qed.

(** One iteration on a buffer and on the buffer cut short. *)
Lemma dispatch_truncated conf p s idx gp gd d' i' gd' :
  dispatch conf (p ++ s) idx gd = Continue d' i' gd' →
  (∃ gp', dispatch conf p idx gp = Return Panic p gp') ∨
  (∃ p' gp', dispatch conf p idx gp = Continue p' i' gp' ∧ d' = p' ++ s) ∨
  (∃ gp', dispatch conf p idx gp = Return (Ok (length p)) p gp' ∧
          idx + 1 = length p ∧ p !! idx = Some trailer ∧ reprocess conf = true).
Proof.
  unfold dispatch at 1 2 3.
  destruct (readSpecialPurposeBlock_prefix p s idx) as [-> | ->]; [eauto |].
  destruct (readSpecialPurposeBlock p idx) as [n|e1|]; [| | eauto].
  { intros [= <- <- <-]. right. left. eauto. }
  destruct (readGraphicBlock_prefix p s idx) as [-> | ->]; [eauto |].
  destruct (readGraphicBlock p idx) as [n|e2|]; [| | eauto].
  { intros [= <- <- <-]. right. left. eauto. }
  destruct (readTrailer_prefix p s idx) as [-> | ->]; [eauto |].
  destruct (readTrailer p idx) as [n|e3|] eqn:Etr; [| done | eauto].
  apply readTrailer_Ok in Etr as (-> & Hle & Ht).
  intros Hc. apply trailerFound_Continue in Hc as (-> & -> & Hlt & Hre & [i Hi] & ->).
  assert (idx < length p) as Hidx by lia.
  assert (<[idx := extension]> (p ++ s) = <[idx := extension]> p ++ s) as Hins
    by by apply insert_app_l.
  unfold trailerFound. cbn [GS.bytesOutstanding sawTrailer]. rewrite Hre.
  destruct (idx + 1 <? length p) eqn:Hcut.
  - apply Nat.ltb_lt in Hcut. rewrite (proj2 (Nat.ltb_lt 0 _)) by lia. cbn [andb].
    destruct (readGraphicBlock_prefix (<[idx := extension]> p) s idx) as [-> | Hsame];
      [eauto |].
    rewrite <- Hins, Hi in Hsame. rewrite <- Hsame. right. left. eauto.
  - apply Nat.ltb_ge in Hcut. right. right.
    assert (idx + 1 = length p) as Heq by lia.
    exists (sawTrailer gp 0). split; [| done].
    rewrite dispatch_at_trailer by done. unfold trailerFound.
    by rewrite Heq, Nat.ltb_irrefl.
Qed.

Lemma iterate_truncated conf fuel p s idx gp gd d' g' :
  s ≠ [] →
  iterate fuel conf (p ++ s) idx gd = Some (Ok (length d'), d', g') →
  ∃ r p' gp',
    iterate fuel conf p idx gp = Some (r, p', gp') ∧ length p' = length p ∧
    (r = Panic ∨
     r = Ok (length p') ∧ 0 < length p' ∧ reprocess conf = true ∧
     p' !! (length p' - 1) = Some trailer).
Proof.
  intros Hs. revert p idx gp gd.
  induction fuel as [|fuel IH]; intros p idx gp gd; [done |].
  cbn [iterate].
  destruct (dispatch conf (p ++ s) idx gd) as [d1 i1 g1|r1 d1 g1] eqn:E.
  - intros Hrun.
    destruct (dispatch_truncated conf p s idx gp gd d1 i1 g1 E)
      as [[gp' ->] | [(p1 & gp1 & -> & ->) | (gp' & -> & Hcut & Ht & Hre)]].
    + eauto 10.
    + destruct (IH p1 i1 gp1 g1 Hrun) as (r & p' & gp' & Hp & Hlen & Hr).
      exists r, p', gp'. split; [done |]. split; [| done].
      rewrite Hlen.
      apply dispatch_Continue in E as [(E & _) | (_ & _ & E & _)].
      * by apply app_inv_tail in E as ->.
      * apply (f_equal length) in E. rewrite length_insert, !length_app in E. lia.
    + exists (Ok (length p)), p, gp'. split; [done |]. split; [done |]. right.
      replace (length p - 1) with idx by lia. repeat split; try done. lia.
  - intros [= -> -> ->].
    apply dispatch_Return in E as (E & [(_ & Hno) | (_ & _ & [Hr | Hr])]).
    + by destruct (Hno (length d')).
    + injection Hr as Hr. rewrite E, length_app in Hr.
      assert (0 < length s) by (destruct s; [done | cbn; lia]).
      rewrite dispatch_past_end by lia. eauto 10.
    + done.
Qed.

Lemma streamStart_truncated p s gs idx gs0 :
  streamStart (p ++ s) gs = (Ok idx, gs0) →
  (∃ g, streamStart p gs = (Panic, g)) ∨ streamStart p gs = (Ok idx, gs0).
Proof.
  unfold streamStart.
  destruct (readHeader_prefix p s 0) as [-> | ->]; [eauto |].
  destruct (readHeader p 0) as [[h i1]|?|]; [| done | eauto].
  destruct (readLogicalScreenDescriptor_prefix p s i1) as [-> | ->]; [eauto |].
  destruct (readLogicalScreenDescriptor p i1) as [[sd i2]|?|]; [| done | eauto].
  eauto.
Qed.

Lemma scanStream_truncated conf data gs k d' g' :
  scanStream conf data gs = Some (Ok (length d'), d', g') →
  k < length data →
  ∃ r p' gp',
    scanStream conf (take k data) gs = Some (r, p', gp') ∧
    (r = Panic ∨
     r = Ok k ∧ 0 < k ∧ reprocess conf = true ∧ p' !! (k - 1) = Some trailer).
Proof.
  intros Hfull Hk.
  assert (length (take k data) = k) as Hlen by (rewrite length_take; lia).
  assert (drop k data ≠ []) as Hs.
  { intros E. apply (f_equal length) in E. rewrite length_drop in E. cbn in E. lia. }
  rewrite <- (take_drop k data) in Hfull.
  revert Hlen Hs Hfull. generalize (take k data) (drop k data). intros p s Hlen Hs.
  unfold scanStream.
  destruct (streamStart (p ++ s) gs) as [[idx|e|] gs0] eqn:Estart; [| done | done].
  destruct (readDataBlocksAndTrailer conf (p ++ s) idx gs0) as [[[r1 d1] g1]|] eqn:Erun;
    [| done].
  intros Hfull.
  assert (r1 = Ok (length d') ∧ d1 = d' ∧ g1 = g') as (-> & -> & ->)
    by (destruct r1; [| done | done]; by injection Hfull as <- <- <-).
  destruct (streamStart_truncated p s gs idx gs0 Estart) as [[g ->] | Estart'];
    [eauto 10 |].
  rewrite Estart'. apply streamStart_Ok in Estart' as (? & ? & _).
  destruct (iterate_truncated conf _ p s idx gs0 gs0 d' g' Hs Erun)
    as (r & p' & gp' & Hp & Hlen' & Hr).
  destruct (readDataBlocksAndTrailer_total conf p idx gs0) as [x Hx].
  unfold readDataBlocksAndTrailer in Hx |- *.
  pose proof (iterate_mono _ (length (p ++ s) + 2) _ _ _ _ _ Hx) as Hx'.
  rewrite Hp in Hx'. rewrite length_app in Hx'. specialize (Hx' ltac:(lia)).
  injection Hx' as <-. rewrite Hx.
  destruct Hr as [-> | (-> & ? & ? & ?)].
  - eauto 10.
  - exists (Ok k), p', gp'. rewrite Hlen', Hlen. split; [done |]. right.
    rewrite Hlen', Hlen in *. done.
Qed.

Lemma decodeGIF_accepts conf data gs r :
  decodeGIF conf data gs = Some r → returned r = Ok tt →
  ∃ d' g', scanStream conf data gs = Some (Ok (length d'), d', g').
Proof.
  unfold decodeGIF.
  destruct (scanStream conf data gs) as [[[[n|e|] d'] g']|]; try done.
  - destruct (n =? length d') eqn:En; cbn [negb].
    + apply Nat.eqb_eq in En as ->. eauto.
    + by intros [= <-].
  - by intros [= <-].
  - by intros [= <-].
Qed.

Lemma band_size_le (packed : byte) : N.to_nat (band packed 0x07) ≤ 7.
Proof. unfold band. destruct packed; vm_compute; lia. Qed.

(** C7.  For an exponent between 0 and 7 the global colour table is skipped
    by [3 * 2^(exponent+1)] bytes and so is the local one, the image data
    being read right after it; the length is between 6 and 768, 6 for
    exponent 0 and 768 for exponent 7. *)
Theorem colour_table_byte_length (exponent : nat) :
  exponent ≤ 7 →
  (∀ sd idx, GlobalColourTableSize sd = exponent →
     readGlobalColourTable sd idx = Ok (idx + 3 * 2 ^ (exponent + 1))) ∧
  (∀ data idx packed,
     data !! idx = Some x2c → data !! (idx + 9) = Some packed →
     band packed 0x80 = 0x80%N → N.to_nat (band packed 0x07) = exponent →
     readTableBasedImage data idx =
     (_ ← byteAt data (idx + 10 + 3 * 2 ^ (exponent + 1));
      match readDataSubBlocks data (idx + 10 + 3 * 2 ^ (exponent + 1) + 1) with
      | Ok (_, n) => Ok n
      | Err e => Err (ReadingDataSubBlocks e)
      | Panic => Panic
      end)) ∧
  6 ≤ 3 * 2 ^ (exponent + 1) ≤ 768 ∧
  (exponent = 0 → 3 * Exp2 (exponent + 1) = 6) ∧
  (exponent = 7 → 3 * Exp2 (exponent + 1) = 768).
Proof.
  intros He. repeat split.
  - intros sd idx <-. reflexivity.
  - intros data idx packed H0 H9 Hflag Hsize.
    unfold readTableBasedImage. apply byteAt_Ok in H0, H9.
    rewrite H0. simpl_bind. rewrite (proj2 (neb_false x2c x2c)) by done.
    replace (idx + 1 + 2 + 2 + 2 + 2) with (idx + 9) by lia.
    rewrite H9. simpl_bind. rewrite Hflag, Hsize. cbn [N.eqb Pos.eqb].
    unfold Exp2. replace (idx + 9 + 1 + 3 * 2 ^ (exponent + 1))
      with (idx + 10 + 3 * 2 ^ (exponent + 1)) by lia. done.
  - assert (2 ^ 1 ≤ 2 ^ (exponent + 1)) by (apply Nat.pow_le_mono_r; lia).
    change (2 ^ 1) with 2 in *. lia.
  - assert (2 ^ (exponent + 1) ≤ 2 ^ 8) by (apply Nat.pow_le_mono_r; lia).
    change (2 ^ 8) with 256 in *. lia.
  - by intros ->.
  - by intros ->.
Qed.

Lemma colour_table_byte_length_witness :
  7 ≤ 7 ∧
  readGlobalColourTable
    {| Width := 0; Height := 0; HasGlobalColourTable := true; ColourResolution := 8;
       GlobalColourTableSorted := false; GlobalColourTableSize := 7;
       BackgroundColourIndex := 0; PixelAspectRatio := 0 |} 13 = Ok (13 + 768).
Proof.
  split; [lia |].
  apply (proj1 (colour_table_byte_length 7 ltac:(lia))). reflexivity.
Defined.

(** C6.  A buffer with a valid header, the global colour table flag clear
    in the packed byte of the screen descriptor and a background colour
    index other than 0 is rejected with "No global colour table, but
    background colour index is set", whatever follows in the buffer and
    whether anything follows at all. *)
Theorem background_index_without_table conf data gs h packed bg :
  readHeader data 0 = Ok (h, 6) →
  data !! 10 = Some packed → band packed 0x80 ≠ 0x80%N →
  data !! 11 = Some bg → bg ≠ x00 →
  decodeGIF conf data gs =
  Some {| returned := Err (InLogicalScreenDescriptor BackgroundIndexWithoutGlobalTable);
          buffer := data; state := validated gs; written := None |}.
Proof.
  intros Hh Hp Hflag Hbg Hnz.
  unfold decodeGIF, scanStream, streamStart. rewrite Hh.
  unfold readLogicalScreenDescriptor. cbn [Nat.add].
  apply byteAt_Ok in Hp, Hbg. rewrite Hp. simpl_bind. rewrite Hbg. simpl_bind.
  apply N.eqb_neq in Hflag. rewrite Hflag.
  apply neb_true in Hnz. rewrite Hnz. reflexivity.
Qed.

Lemma background_index_without_table_witness :
  decodeGIF {| logLevel := 2; reprocess := true; outFile := "out.gif"; write := true |}
    (ex_header ++ [x01; x00; x01; x00; x00; x05; x00] ++ ex_image ++ [x3b])
    new_gifstate =
  Some {| returned := Err (InLogicalScreenDescriptor BackgroundIndexWithoutGlobalTable);
          buffer := ex_header ++ [x01; x00; x01; x00; x00; x05; x00] ++ ex_image ++ [x3b];
          state := validated new_gifstate; written := None |}.
Proof.
  apply (background_index_without_table _ _ _
           {| Signature := "GIF"; Version := "89a" |} x00 x05).
  - reflexivity.
  - reflexivity.
  - vm_compute. discriminate.
  - reflexivity.
  - discriminate.
Defined.


(** Every production starts with a read at [idx]. *)
Lemma productions_past_end data idx :
  length data ≤ idx →
  readHeader data idx = Panic ∧
  readLogicalScreenDescriptor data idx = Panic ∧
  readDataSubBlocks data idx = Panic ∧
  readApplicationExtension data idx = Panic ∧
  readSpecialPurposeBlock data idx = Panic ∧
  readGraphicControlExtension data idx = Panic ∧
  readTableBasedImage data idx = Panic ∧
  readPlainTextExtension data idx = Panic ∧
  readGraphicRenderingBlock data idx = Panic ∧
  readGraphicBlock data idx = Panic ∧
  readTrailer data idx = Panic.
Proof.
  intros H.
  pose proof (proj2 (byteAt_Panic data idx) H) as H0.
  pose proof (proj2 (byteAt_Panic data (idx + 2 + 2)) ltac:(lia)) as H4.
  unfold readGraphicBlock, readGraphicRenderingBlock, readSpecialPurposeBlock,
    readHeader, readLogicalScreenDescriptor, readApplicationExtension,
    readGraphicControlExtension, readTableBasedImage, readPlainTextExtension,
    readTrailer, readDataSubBlocks, orElse, isntByte.
  rewrite H0, H4, readDataSubBlocks_from_Panic by done. done.
Qed.

(** C3 as stated has an exhausted buffer give an error value.  The empty
    buffer and [ex_single] cut after 20 bytes make [decodeGIF] panic, on
    [data[0]] in [readHeader] and on a read in [readTableBasedImage]. *)
Lemma exhausted_buffer_counterexample :
  decodeGIF (ex_conf false) [] new_gifstate =
  Some {| returned := Panic; buffer := []; state := new_gifstate; written := None |} ∧
  decodeGIF (ex_conf false) ex_single new_gifstate =
  Some {| returned := Ok tt; buffer := ex_single;
          state := sawTrailer (validated new_gifstate) 0;
          written := Some ex_single |} ∧
  decodeGIF (ex_conf false) (take 20 ex_single) new_gifstate =
  Some {| returned := Panic; buffer := take 20 ex_single;
          state := validated new_gifstate; written := None |} ∧
  ∀ e : error, Panic ≠ @Err unit e.
Proof. repeat split; try (vm_compute; reflexivity). discriminate. Qed.

(** C3, amended.  A read past the end of the buffer is never carried out:
    it ends the run in a panic of the Go run time, and no error value
    stands for it.  So every production started at or past the end
    panics; [decodeGIF] returns without error only when the scan ended at
    the length of the buffer; and a buffer on which the scan ends at its
    length, cut anywhere before its end, panics, or - with recovery on and
    the cut right after a trailer byte - is scanned to its new end. *)
Theorem exhausted_buffer_panics conf data gs :
  (∀ idx, length data ≤ idx →
     readHeader data idx = Panic ∧
     readLogicalScreenDescriptor data idx = Panic ∧
     readDataSubBlocks data idx = Panic ∧
     readApplicationExtension data idx = Panic ∧
     readSpecialPurposeBlock data idx = Panic ∧
     readGraphicControlExtension data idx = Panic ∧
     readTableBasedImage data idx = Panic ∧
     readPlainTextExtension data idx = Panic ∧
     readGraphicRenderingBlock data idx = Panic ∧
     readGraphicBlock data idx = Panic ∧
     readTrailer data idx = Panic) ∧
  (∀ r, decodeGIF conf data gs = Some r → returned r = Ok tt →
     ∃ d' g', scanStream conf data gs = Some (Ok (length d'), d', g')) ∧
  (∀ k d' g',
     scanStream conf data gs = Some (Ok (length d'), d', g') →
     k < length data →
     ∃ r p' gp',
       scanStream conf (take k data) gs = Some (r, p', gp') ∧
       (r = Panic ∨
        r = Ok k ∧ 0 < k ∧ reprocess conf = true ∧ p' !! (k - 1) = Some trailer)).
Proof.
  split; [apply productions_past_end |]. split.
  - apply decodeGIF_accepts.
  - intros k d' g'. apply scanStream_truncated.
Qed.

Lemma exhausted_buffer_panics_witness :
  ∃ r p' gp',
    scanStream (ex_conf true) (take 29 ex_forged) new_gifstate = Some (r, p', gp') ∧
    (r = Panic ∨
     r = Ok 29 ∧ 0 < 29 ∧ reprocess (ex_conf true) = true ∧
     p' !! (29 - 1) = Some trailer).
Proof.
  destruct (exhausted_buffer_panics (ex_conf true) ex_forged new_gifstate) as (_ & _ & H).
  apply (H 29 (<[28 := extension]> ex_forged)
           {| GS.validSignature := true; GS.readTrailer := true;
              GS.bytesOutstanding := 0; GS.patches := [thePatch 28] |}).
  - vm_compute. reflexivity.
  - vm_compute. lia.
Defined.

(** * Further properties *)

(** ** Data sub-blocks read back *)

Lemma sizeByte_to_nat chunk : length chunk ≤ 255 → to_nat (sizeByte chunk) = length chunk.
Proof.
  intros H. unfold sizeByte.
  destruct (Byte.of_nat (length chunk)) as [b|] eqn:E.
  - by apply Byte.to_of_nat.
  - pose proof (Byte.to_of_nat_option_map (length chunk)) as M. rewrite E in M.
    rewrite (proj2 (Nat.leb_le _ _) H) in M. done.
Qed.

Lemma take_drop_middle (pre : list byte) b chunk rest :
  take (length chunk) (drop (length pre + 1) (pre ++ b :: chunk ++ rest)) = chunk.
Proof.
  rewrite drop_app_ge by lia.
  replace (length pre + 1 - length pre) with 1 by lia.
  cbn [drop]. apply take_app_length.
Qed.

Lemma readDataSubBlocks_from_encode pre chunks post buf :
  Forall (λ chunk, 0 < length chunk ≤ 255) chunks →
  readDataSubBlocks_from (pre ++ encodeSubBlocks chunks ++ post) (length pre) buf
  = Ok (buf ++ concat chunks, length pre + length (encodeSubBlocks chunks)).
Proof.
  intros Hall. revert pre buf.
  induction Hall as [|chunk chunks [Hpos Hmax] _ IH]; intros pre buf;
    rewrite readDataSubBlocks_from_step; cbn [encodeSubBlocks app].
  - rewrite list_lookup_middle by done. cbn beta iota.
    rewrite decide_True by done. cbn [concat length]. by rewrite app_nil_r.
  - rewrite list_lookup_middle by done. cbn beta iota.
    rewrite sizeByte_to_nat by done.
    rewrite decide_False by lia.
    rewrite <- (app_assoc chunk), take_drop_middle.
    specialize (IH (pre ++ sizeByte chunk :: chunk) (buf ++ chunk)).
    rewrite length_app in IH. cbn [length] in IH.
    replace (length pre + 1 + length chunk) with (length pre + S (length chunk)) by lia.
    replace (sizeByte chunk :: chunk ++ encodeSubBlocks chunks ++ post)
      with ((sizeByte chunk :: chunk) ++ encodeSubBlocks chunks ++ post) by done.
    rewrite app_assoc, IH. cbn [concat length]. rewrite length_app, <- app_assoc.
    do 2 f_equal. lia.
Qed.

(** X1.  Reading back what was laid out.  For chunks of 1 to 255 bytes,
    each after its size byte, and a block terminator, anywhere in a buffer,
    [readDataSubBlocks] returns the chunks joined together and the offset
    after the terminator. *)
Theorem readDataSubBlocks_reads_back pre chunks post :
  Forall (λ chunk, 0 < length chunk ≤ 255) chunks →
  readDataSubBlocks (pre ++ encodeSubBlocks chunks ++ post) (length pre)
  = Ok (concat chunks, length pre + length (encodeSubBlocks chunks)).
Proof. intros H. apply (readDataSubBlocks_from_encode pre chunks post [] H). Qed.

Lemma readDataSubBlocks_reads_back_witness :
  readDataSubBlocks ([x2c] ++ encodeSubBlocks [[x4c; x01]; [x07]] ++ [x3b]) 1
  = Ok ([x4c; x01; x07], 1 + 6).
Proof.
  apply (readDataSubBlocks_reads_back [x2c] [[x4c; x01]; [x07]] [x3b]).
  repeat constructor; cbn; lia.
Defined.

(** ** The productions, one by one *)

Lemma neb_refl b : neb b b = false.
Proof. by apply neb_false. Qed.

(** X2.  [readGraphicControlExtension] accepts exactly the eight bytes
    0x21, 0xf9, 0x04, four bytes of any value, 0x00, and then returns the
    offset after them. *)
Theorem readGraphicControlExtension_exactly data idx n :
  readGraphicControlExtension data idx = Ok n ↔
  n = idx + 8 ∧
  data !! idx = Some x21 ∧ data !! (idx + 1) = Some xf9 ∧
  data !! (idx + 2) = Some x04 ∧ data !! (idx + 7) = Some x00.
Proof.
  split.
  - unfold readGraphicControlExtension. intros H. inv_steps H.
    apply negb_false_iff, Nat.eqb_eq in C1.
    assert (b1 = x04) as -> by (apply (f_equal Byte.of_nat) in C1;
                                rewrite Byte.of_to_nat in C1; by injection C1).
    replace (idx + 1 + 1 + 1 + to_nat x04) with (idx + 7) in E2 by (cbn; lia).
    replace (idx + 1 + 1) with (idx + 2) in E1 by lia.
    tidy. repeat split; try done. cbn. lia.
  - intros (-> & H0 & H1 & H2 & H7). unfold readGraphicControlExtension.
    apply byteAt_Ok in H0, H1, H2, H7. rewrite H0. simpl_bind.
    change (neb x21 extension) with false. cbn iota. rewrite H1. simpl_bind.
    rewrite neb_refl. replace (idx + 1 + 1) with (idx + 2) by lia.
    rewrite H2. simpl_bind. change (negb (to_nat x04 =? 4)) with false. cbn iota.
    replace (idx + 2 + 1 + to_nat x04) with (idx + 7) by (cbn; lia).
    rewrite H7. simpl_bind. rewrite neb_refl. f_equal. lia.
Qed.

(** X3.  The one error [readTableBasedImage] returns is "no image
    separator", and it returns it exactly when the byte at the offset is
    there and is not 0x2c.  After the separator nothing is checked: the
    call returns an offset or runs off the buffer. *)
Theorem readTableBasedImage_only_error data idx e :
  readTableBasedImage data idx = Err e ↔
  e = NoImageSeparator ∧ ∃ b, data !! idx = Some b ∧ b ≠ x2c.
Proof.
  unfold readTableBasedImage. split.
  - intros H. simpl_bind in H.
    destruct (byteAt data idx) as [b|?|] eqn:E0; simpl_bind in H; [| | done].
    2: { by destruct (byteAt_not_Err _ _ _ E0). }
    destruct (neb b x2c) eqn:C.
    + injection H as <-. apply neb_true in C. apply byteAt_Ok in E0. eauto.
    + exfalso.
      destruct (byteAt data (idx + 1 + 2 + 2 + 2 + 2)) as [packed|?|] eqn:E1;
        simpl_bind in H; [| | done].
      2: { by destruct (byteAt_not_Err _ _ _ E1). }
      match type of H with
      | (byteAt data ?i ≫= _) = _ =>
          destruct (byteAt data i) as [cs|?|] eqn:E2; simpl_bind in H; [| | done]
      end.
      2: { by destruct (byteAt_not_Err _ _ _ E2). }
      match type of H with
      | match readDataSubBlocks data ?i with _ => _ end = _ =>
          destruct (readDataSubBlocks data i) as [[??]|?|] eqn:E3; [done | | done]
      end.
      by destruct (readDataSubBlocks_not_Err _ _ _ E3).
  - intros (-> & b & Hb & Hne). apply byteAt_Ok in Hb. rewrite Hb. simpl_bind.
    apply neb_true in Hne. by rewrite Hne.
Qed.

Lemma readGraphicControlExtension_exactly_witness :
  readGraphicControlExtension ex_control 0 = Ok 8.
Proof.
  apply (proj2 (readGraphicControlExtension_exactly ex_control 0 8)).
  repeat split; reflexivity.
Defined.

Lemma readTableBasedImage_only_error_witness :
  readTableBasedImage ex_control 0 = Err NoImageSeparator.
Proof.
  apply (proj2 (readTableBasedImage_only_error ex_control 0 NoImageSeparator)).
  split; [reflexivity |]. exists x21. split; [reflexivity | discriminate].
Defined.

Lemma lookup_window (data : list byte) idx n w k b :
  take n (drop idx data) = w → w !! k = Some b → data !! (idx + k) = Some b.
Proof.
  intros <- H. rewrite lookup_take in H. case_decide; [| done].
  by rewrite lookup_drop in H.
Qed.

Lemma window6 (data : list byte) idx a0 a1 a2 a3 a4 a5 :
  data !! idx = Some a0 → data !! (idx + 1) = Some a1 →
  data !! (idx + 2) = Some a2 → data !! (idx + 3) = Some a3 →
  data !! (idx + 3 + 1) = Some a4 → data !! (idx + 3 + 2) = Some a5 →
  take 6 (drop idx data) = [a0; a1; a2; a3; a4; a5].
Proof.
  intros H0 H1 H2 H3 H4 H5. apply list_eq. intros i.
  rewrite lookup_take, lookup_drop.
  destruct i as [|[|[|[|[|[|i]]]]]]; cbn [lookup list_lookup];
    rewrite ?Nat.add_0_r; try done.
  - rewrite decide_True by lia. by replace (idx + 4) with (idx + 3 + 1) by lia.
  - rewrite decide_True by lia. by replace (idx + 5) with (idx + 3 + 2) by lia.
Qed.

(** X4.  [readHeader] accepts exactly a buffer whose six bytes from the
    offset are "GIF87a" or "GIF89a", and returns the signature, the version
    read and the offset after them. *)
Theorem readHeader_exactly data idx h n :
  readHeader data idx = Ok (h, n) ↔
  n = idx + 6 ∧
  (take 6 (drop idx data) = ["G"; "I"; "F"; "8"; "7"; "a"]%byte ∧
   h = {| Signature := "GIF"; Version := "87a" |} ∨
   take 6 (drop idx data) = ["G"; "I"; "F"; "8"; "9"; "a"]%byte ∧
   h = {| Signature := "GIF"; Version := "89a" |}).
Proof.
  split.
  - unfold readHeader, orElse, andAlso, isByte, isntByte. simpl_bind.
    destruct (byteAt data idx) as [b0|?|] eqn:E0; simpl_bind; [| done | done].
    destruct (neb b0 "G") eqn:C0; simpl_bind; [done |].
    destruct (byteAt data (idx + 1)) as [b1|?|] eqn:E1; simpl_bind; [| done | done].
    destruct (neb b1 "I") eqn:C1; simpl_bind; [done |].
    destruct (byteAt data (idx + 2)) as [b2|?|] eqn:E2; simpl_bind; [| done | done].
    destruct (neb b2 "F") eqn:C2; simpl_bind; [done |].
    destruct (byteAt data (idx + 3)) as [b3|?|] eqn:E3; simpl_bind; [| done | done].
    destruct (eqb b3 "8") eqn:C3; simpl_bind; [| done].
    destruct (byteAt data (idx + 3 + 1)) as [b4|?|] eqn:E4; simpl_bind; [| done | done].
    apply neb_false in C0, C1, C2. apply bool_decide_eq_true in C3. subst.
    apply byteAt_Ok in E0, E1, E2, E3, E4.
    destruct (byteAt data (idx + 3 + 2)) as [b5|?|] eqn:E5; simpl_bind.
    2: { exfalso. by eapply byteAt_not_Err. }
    2: { destruct (eqb b4 "7"), (eqb b4 "9"); simpl_bind; done. }
    apply byteAt_Ok in E5.
    pose proof (window6 _ _ _ _ _ _ _ _ E0 E1 E2 E3 E4 E5) as W.
    destruct (eqb b4 "7") eqn:C4; simpl_bind.
    + apply bool_decide_eq_true in C4 as ->.
      destruct (eqb b5 "a") eqn:C5; simpl_bind.
      * apply bool_decide_eq_true in C5 as ->. intros [= <- <-]. split; [lia |]. by left.
      * change (eqb "7" "9") with false. by simpl_bind.
    + destruct (eqb b4 "9") eqn:C6; simpl_bind; [| done].
      apply bool_decide_eq_true in C6 as ->.
      destruct (eqb b5 "a") eqn:C5; simpl_bind; [| done].
      apply bool_decide_eq_true in C5 as ->. intros [= <- <-]. split; [lia |]. by right.
  - intros (-> & [[W ->] | [W ->]]);
      pose proof (lookup_window _ _ _ _ 0 _ W eq_refl) as H0;
      pose proof (lookup_window _ _ _ _ 1 _ W eq_refl) as H1;
      pose proof (lookup_window _ _ _ _ 2 _ W eq_refl) as H2;
      pose proof (lookup_window _ _ _ _ 3 _ W eq_refl) as H3;
      pose proof (lookup_window _ _ _ _ 4 _ W eq_refl) as H4;
      pose proof (lookup_window _ _ _ _ 5 _ W eq_refl) as H5;
      rewrite Nat.add_0_r in H0;
      replace (idx + 4) with (idx + 3 + 1) in H4 by lia;
      replace (idx + 5) with (idx + 3 + 2) in H5 by lia;
      apply byteAt_Ok in H0, H1, H2, H3, H4, H5;
      unfold readHeader, orElse, andAlso, isByte, isntByte;
      rewrite H0, H1, H2, H3, H4, H5;
      replace (idx + 6) with (idx + 3 + 3) by lia; reflexivity.
Qed.

Lemma readHeader_exactly_witness :
  readHeader ex_single 0 = Ok ({| Signature := "GIF"; Version := "89a" |}, 6).
Proof.
  apply (proj2 (readHeader_exactly ex_single 0 _ 6)).
  split; [reflexivity |]. right. split; reflexivity.
Defined.

(** Where a Graphic-Rendering Block starts, neither a Graphic Control
    Extension nor an Application Extension is read. *)
Lemma rendering_excludes_extensions data idx n :
  readGraphicRenderingBlock data idx = Ok n →
  (∃ e, readGraphicControlExtension data idx = Err e) ∧
  (∃ e, readApplicationExtension data idx = Err e).
Proof.
  unfold readGraphicRenderingBlock. intros H.
  destruct (readTableBasedImage data idx) as [m|?|] eqn:E1; try discriminate H.
  - apply readTableBasedImage_Ok in E1 as [_ H0]. split.
    + unfold readGraphicControlExtension. apply byteAt_Ok in H0. rewrite H0. simpl_bind.
      change (neb x2c extension) with true. eauto.
    + rewrite (readApplicationExtension_no_introducer _ _ _ H0) by done. eauto.
  - destruct (readPlainTextExtension data idx) as [m|?|] eqn:E2; try discriminate H.
    apply readPlainTextExtension_Ok in E2 as (_ & H0 & H1).
    apply byteAt_Ok in H0, H1.
    unfold readGraphicControlExtension, readApplicationExtension.
    rewrite H0. simpl_bind. rewrite neb_refl, H1. simpl_bind.
    change (neb x01 xf9) with true. change (neb x01 xff) with true. eauto.
Qed.

(** X5.  How [readGraphicBlock] is put together.  An Application
    Extension is read as a Special-Purpose Block and as a Graphic Block, to
    the same offset; a Graphic Control Extension followed by a
    Graphic-Rendering Block or by an Application Extension is one Graphic
    Block; a Graphic-Rendering Block alone is a Graphic Block. *)
Theorem readGraphicBlock_composes data idx :
  (∀ ext n, readApplicationExtension data idx = Ok (ext, n) →
     readSpecialPurposeBlock data idx = Ok n ∧ readGraphicBlock data idx = Ok n) ∧
  (∀ m n, readGraphicControlExtension data idx = Ok m →
     readGraphicRenderingBlock data m = Ok n →
     readGraphicBlock data idx = Ok n) ∧
  (∀ m ext n, readGraphicControlExtension data idx = Ok m →
     readApplicationExtension data m = Ok (ext, n) →
     readGraphicBlock data idx = Ok n) ∧
  (∀ n, readGraphicRenderingBlock data idx = Ok n →
     readGraphicBlock data idx = Ok n).
Proof.
  split; [| split; [| split]].
  - intros ext n H. split; [unfold readSpecialPurposeBlock; by rewrite H |].
    pose proof (readApplicationExtension_Ok _ _ _ _ H) as (_ & H0 & H1).
    unfold readGraphicBlock, readGraphicControlExtension.
    apply byteAt_Ok in H0, H1. rewrite H0. simpl_bind. rewrite neb_refl, H1. simpl_bind.
    change (neb xff xf9) with true. cbn iota. simpl_bind. by rewrite H.
  - intros m n Hg Hr. unfold readGraphicBlock. rewrite Hg. simpl_bind.
    destruct (rendering_excludes_extensions _ _ _ Hr) as (_ & e & ->). by rewrite Hr.
  - intros m ext n Hg Ha. unfold readGraphicBlock. rewrite Hg. simpl_bind. by rewrite Ha.
  - intros n Hr. unfold readGraphicBlock.
    destruct (rendering_excludes_extensions _ _ _ Hr) as ((e1 & ->) & e2 & He2).
    simpl_bind. by rewrite He2, Hr.
Qed.

Lemma readGraphicBlock_composes_witness :
  readGraphicBlock (ex_control ++ ex_image) 0 = Ok 23.
Proof.
  apply (proj1 (proj2 (readGraphicBlock_composes (ex_control ++ ex_image) 0)) 8 23).
  - vm_compute. reflexivity.
  - vm_compute. reflexivity.
Defined.

(** X6.  What [readLogicalScreenDescriptor] returns when it returns a
    descriptor: the offset seven bytes on; width and height 0 (they are
    skipped); the flags, the colour resolution and the table size as the
    bits 7, 3, 6-4 and 2-0 of the packed byte; the background colour index
    and the pixel aspect ratio as the two bytes after it; and no background
    colour index without a global colour table. *)
Theorem readLogicalScreenDescriptor_fields data idx sd n :
  readLogicalScreenDescriptor data idx = Ok (sd, n) →
  n = idx + 7 ∧ n ≤ length data ∧
  Width sd = 0 ∧ Height sd = 0 ∧
  (∃ packed, data !! (idx + 4) = Some packed ∧
     HasGlobalColourTable sd = N.testbit (Byte.to_N packed) 7 ∧
     GlobalColourTableSorted sd = N.testbit (Byte.to_N packed) 3 ∧
     ColourResolution sd = N.to_nat (Byte.to_N packed / 16 mod 8) + 1 ∧
     GlobalColourTableSize sd = N.to_nat (Byte.to_N packed mod 8)) ∧
  1 ≤ ColourResolution sd ≤ 8 ∧ GlobalColourTableSize sd ≤ 7 ∧
  data !! (idx + 5) = Byte.of_nat (BackgroundColourIndex sd) ∧
  data !! (idx + 6) = Byte.of_nat (PixelAspectRatio sd) ∧
  (HasGlobalColourTable sd = false → BackgroundColourIndex sd = 0).
Proof.
  unfold readLogicalScreenDescriptor. intros H. inv_steps H.
  apply byteAt_lt in E1 as Hlt. apply byteAt_Ok in E, E0, E1.
  injection H as <- <-.
  cbn [Width Height HasGlobalColourTable GlobalColourTableSorted ColourResolution
         GlobalColourTableSize BackgroundColourIndex PixelAspectRatio].
  replace (idx + 2 + 2) with (idx + 4) in * by lia.
  replace (idx + 4 + 1) with (idx + 5) in * by lia.
  replace (idx + 5 + 1) with (idx + 6) in * by lia.
  rewrite !Byte.of_to_nat.
  split; [lia |]. split; [lia |]. split; [done |]. split; [done |].
  split; [exists b; split; [done |]; unfold band; clear; destruct b; vm_compute; done |].
  split; [unfold band; clear; destruct b; vm_compute; lia |].
  split; [unfold band; clear; destruct b; vm_compute; lia |].
  split; [done |]. split; [done |].
  intros Hno. rewrite Hno in C. cbn [negb andb] in C. by apply neb_false in C as ->.
Qed.

Lemma readLogicalScreenDescriptor_fields_witness :
  let data := ex_header ++ [x01; x00; x01; x00; xbd; x05; x31] in
  let sd := {| Width := 0; Height := 0; HasGlobalColourTable := true;
               ColourResolution := 4; GlobalColourTableSorted := true;
               GlobalColourTableSize := 5; BackgroundColourIndex := 5;
               PixelAspectRatio := 49 |} in
  13 = 6 + 7 ∧ 13 ≤ length data ∧
  1 ≤ ColourResolution sd ≤ 8 ∧ GlobalColourTableSize sd ≤ 7 ∧
  data !! (6 + 5) = Byte.of_nat (BackgroundColourIndex sd) ∧
  data !! (6 + 6) = Byte.of_nat (PixelAspectRatio sd).
Proof.
  cbv zeta.
  destruct (readLogicalScreenDescriptor_fields
              (ex_header ++ [x01; x00; x01; x00; xbd; x05; x31]) 6
              {| Width := 0; Height := 0; HasGlobalColourTable := true;
                 ColourResolution := 4; GlobalColourTableSorted := true;
                 GlobalColourTableSize := 5; BackgroundColourIndex := 5;
                 PixelAspectRatio := 49 |} 13)
    as (Hn & Hlen & _ & _ & _ & Hres & Hsize & Hbg & Hpar & _).
  - reflexivity.
  - split; [exact Hn |]. split; [exact Hlen |]. split; [exact Hres |].
    split; [exact Hsize |]. split; [exact Hbg | exact Hpar].
Defined.

(** X7.  A byte that starts no block ends the loop with the error "unable
    to read data blocks" for that offset: any byte other than 0x21, 0x2c
    and 0x3b, and 0x21 followed by a label other than 0xf9, 0xff and 0x01
    (a Comment Extension, 0x21 0xfe, is one).  Buffer and state are left
    as they were. *)
Theorem unrecognised_block conf data idx gs b :
  data !! idx = Some b →
  (b ≠ x21 ∧ b ≠ x2c ∧ b ≠ x3b) ∨
  (b = x21 ∧ ∃ label, data !! (idx + 1) = Some label ∧
                      label ≠ xf9 ∧ label ≠ xff ∧ label ≠ x01) →
  dispatch conf data idx gs
  = Return (Err (UnableToReadDataBlocks idx (length data))) data gs.
Proof.
  intros Hb [(Hx & Hi & Ht) | (-> & l & Hl & H1 & H2 & H3)].
  - unfold dispatch, readSpecialPurposeBlock.
    rewrite (readApplicationExtension_no_introducer _ _ _ Hb Hx).
    rewrite (readGraphicBlock_no_block _ _ _ Hb Hx Hi).
    unfold readTrailer. apply byteAt_Ok in Hb. rewrite Hb. simpl_bind.
    apply neb_true in Ht. unfold trailer. by rewrite Ht.
  - apply byteAt_Ok in Hb, Hl. apply neb_true in H1, H2, H3.
    assert (readApplicationExtension data idx = Err NotApplicationExtension) as Happ.
    { unfold readApplicationExtension. rewrite Hb. simpl_bind.
      change (neb x21 extension) with false. cbn iota. rewrite Hl. simpl_bind.
      by rewrite H2. }
    assert (readGraphicBlock data idx
            = Err (UnableToReadGraphicRenderingBlock NotGraphicRenderingBlock)) as Hgb.
    { unfold readGraphicBlock, readGraphicControlExtension. rewrite Hb. simpl_bind.
      change (neb x21 extension) with false. cbn iota. rewrite Hl. simpl_bind.
      rewrite H1. simpl_bind. rewrite Happ.
      unfold readGraphicRenderingBlock, readTableBasedImage, readPlainTextExtension.
      rewrite Hb. simpl_bind. change (neb x21 x2c) with true.
      change (neb x21 extension) with false. cbn iota. rewrite Hl. simpl_bind.
      by rewrite H3. }
    unfold dispatch, readSpecialPurposeBlock. rewrite Happ, Hgb.
    unfold readTrailer. rewrite Hb. by simpl_bind.
Qed.

Lemma unrecognised_block_witness :
  dispatch (ex_conf true) (ex_header ++ ex_screen ++ [x21; xfe; x00]) 13 new_gifstate
  = Return (Err (UnableToReadDataBlocks 13
                   (length (ex_header ++ ex_screen ++ [x21; xfe; x00]))))
      (ex_header ++ ex_screen ++ [x21; xfe; x00]) new_gifstate.
Proof.
  apply (unrecognised_block _ _ 13 _ x21).
  - reflexivity.
  - right. split; [reflexivity |]. exists xfe. repeat split; discriminate.
Defined.

(** ** The loop that writes the patched file *)

Lemma applyPatches_length data ps skipped d' skipped' :
  applyPatches data ps skipped = Ok (d', skipped') → length d' = length data.
Proof.
  revert data skipped. induction ps as [|p ps IH]; intros data skipped; cbn [applyPatches].
  - by intros [= <- _].
  - destruct (byteAt data (index p)) as [b|?|]; simpl_bind; [| done | done].
    destruct (eqb b (oldValue p)); intros H%IH; [by rewrite length_insert in H | done].
Qed.

(** X8.  The loop that applies the ledger before the file is written
    panics exactly when a patch has an index outside the buffer, returns no
    error, keeps the length of the buffer, and leaves every byte alone
    whose offset no patch names. *)
Theorem applyPatches_bounds data ps skipped :
  (applyPatches data ps skipped = Panic ↔ Exists (λ p, length data ≤ index p) ps) ∧
  (∀ e, applyPatches data ps skipped ≠ Err e) ∧
  (∀ d' skipped', applyPatches data ps skipped = Ok (d', skipped') →
     length d' = length data ∧
     ∀ i, Forall (λ p, index p ≠ i) ps → d' !! i = data !! i).
Proof.
  split; [| split].
  - revert data skipped. induction ps as [|p ps IH]; intros data skipped; cbn [applyPatches].
    + split; [done | by intros ?%Exists_nil].
    + rewrite Exists_cons.
      destruct (byteAt data (index p)) as [b|?|] eqn:E; simpl_bind.
      * apply byteAt_lt in E.
        destruct (eqb b (oldValue p)); rewrite IH, ?length_insert;
          (split; [by right | intros [? | ?]; [lia | done]]).
      * by destruct (byteAt_not_Err _ _ _ E).
      * apply byteAt_Panic in E. split; [by left | done].
  - revert data skipped. induction ps as [|p ps IH]; intros data skipped e; cbn [applyPatches].
    + done.
    + destruct (byteAt data (index p)) as [b|?|] eqn:E; simpl_bind; [| | done].
      * destruct (eqb b (oldValue p)); apply IH.
      * by destruct (byteAt_not_Err _ _ _ E).
  - intros d' skipped' H. split; [by eapply applyPatches_length |].
    revert data skipped H. induction ps as [|p ps IH]; intros data skipped;
      cbn [applyPatches].
    + by intros [= <- _].
    + destruct (byteAt data (index p)) as [b|?|]; simpl_bind; [| done | done].
      intros H i [Hp Hps]%Forall_cons.
      destruct (eqb b (oldValue p)).
      * rewrite (IH _ _ H i Hps). by apply list_lookup_insert_ne.
      * by apply (IH _ _ H).
Qed.

Lemma applyPatches_bounds_witness :
  applyPatches ex_single [thePatch 29] [] = Panic.
Proof.
  apply (proj2 (proj1 (applyPatches_bounds ex_single [thePatch 29] []))).
  apply Exists_cons_hd. vm_compute. lia.
Defined.

Lemma applyPatches_app data ps qs skipped :
  applyPatches data (ps ++ qs) skipped =
  match applyPatches data ps skipped with
  | Ok (d, skipped') => applyPatches d qs skipped'
  | Err e => Err e
  | Panic => Panic
  end.
Proof.
  revert data skipped. induction ps as [|p ps IH]; intros data skipped;
    cbn [applyPatches app]; [done |].
  destruct (byteAt data (index p)) as [b|?|]; simpl_bind; [| done | done].
  destruct (eqb b (oldValue p)); apply IH.
Qed.

(** ** What the loop keeps *)

Lemma iterate_invariant_at (P : list byte → nat → gifstate → Prop) conf :
  (∀ d i g d' i' g', P d i g → dispatch conf d i g = Continue d' i' g' → P d' i' g') →
  (∀ d i g r d' g', P d i g → dispatch conf d i g = Return r d' g' → P d' i g') →
  ∀ fuel d i g r d' g',
    P d i g → iterate fuel conf d i g = Some (r, d', g') → ∃ i', P d' i' g'.
Proof.
  intros Hc Hr. induction fuel as [|fuel IH]; intros d i g r d' g' HP; [done |].
  cbn [iterate]. destruct (dispatch conf d i g) as [d1 i1 g1|r1 d1 g1] eqn:E.
  - apply IH. by eapply Hc.
  - intros [= <- <- <-]. exists i. by eapply Hr.
Qed.

(** The loop from the call in [decodeGIF]. *)
Lemma scanStream_invariant (P : list byte → nat → gifstate → Prop) conf data gs :
  (∀ idx, P data idx gs) → (∀ idx, P data idx (validated gs)) →
  (∀ d i g d' i' g', P d i g → dispatch conf d i g = Continue d' i' g' → P d' i' g') →
  (∀ d i g r d' g', P d i g → dispatch conf d i g = Return r d' g' → P d' i g') →
  ∀ r d' g', scanStream conf data gs = Some (r, d', g') → ∃ i', P d' i' g'.
Proof.
  intros H0 H1 Hc Hr r d' g'. unfold scanStream.
  destruct (streamStart data gs) as [[idx|e|] gs0] eqn:E.
  - apply streamStart_Ok in E as (_ & _ & ->).
    destruct (readDataBlocksAndTrailer _ _ _ _) as [[[r1 d1] g1]|] eqn:E1; [| done].
    intros H. assert (d1 = d' ∧ g1 = g') as [-> ->] by (destruct r1; by injection H).
    eapply (iterate_invariant_at P conf Hc Hr); [apply H1 | exact E1].
  - intros [= <- <- <-]. exists 0. unfold streamStart in E.
    destruct (readHeader data 0) as [[??]|?|]; [| by injection E as _ <- | done].
    destruct (readLogicalScreenDescriptor _ _) as [[sd ?]|?|];
      [| by injection E as _ <- | done].
    by destruct (HasGlobalColourTable sd).
  - intros [= <- <- <-]. exists 0. unfold streamStart in E.
    destruct (readHeader data 0) as [[??]|?|]; [| done | by injection E as <-].
    destruct (readLogicalScreenDescriptor _ _) as [[sd ?]|?|];
      [| done | by injection E as <-].
    by destruct (HasGlobalColourTable sd).
Qed.

(** X9.  Without [-reprocess] the scan writes nothing: whatever it
    returns, the buffer is the file as read and the ledger is as it was. *)
Theorem without_reprocess_nothing_is_written conf data gs r d' g' :
  reprocess conf = false →
  scanStream conf data gs = Some (r, d', g') →
  d' = data ∧ GS.patches g' = GS.patches gs.
Proof.
  intros Hoff H.
  destruct (scanStream_invariant (λ d _ g, d = data ∧ GS.patches g = GS.patches gs)
              conf data gs) with (r := r) (d' := d') (g' := g') as [_ K]; try done.
  - intros d i g d1 i1 g1 [-> Hp] E.
    apply dispatch_Continue in E as [(-> & -> & _) | (_ & _ & _ & _ & Hon & _)]; [done |].
    congruence.
  - intros d i g r1 d1 g1 [-> Hp] E.
    apply dispatch_Return in E as (-> & [(-> & _) | (_ & -> & _)]); done.
Qed.

Lemma without_reprocess_nothing_is_written_witness :
  ex_forged = ex_forged ∧
  GS.patches (sawTrailer (validated new_gifstate) 23) = GS.patches new_gifstate.
Proof.
  apply (without_reprocess_nothing_is_written (ex_conf false) ex_forged new_gifstate
           (Ok 29) ex_forged (sawTrailer (validated new_gifstate) 23)).
  - reflexivity.
  - vm_compute. reflexivity.
Defined.

(** ** The ledger *)

(** X10.  The ledger describes the changes in full: started empty,
    whatever the scan returns, applying the recorded patches in order to
    the file as it was read gives the buffer as the scan left it, and no
    patch is skipped. *)
Theorem ledger_replays conf data gs r d' g' :
  GS.patches gs = [] →
  scanStream conf data gs = Some (r, d', g') →
  applyPatches data (GS.patches g') [] = Ok (d', []) ∧ length d' = length data.
Proof.
  intros Hnil H.
  assert (applyPatches data (GS.patches g') [] = Ok (d', [])) as K.
  { destruct (scanStream_invariant
                (λ d _ g, applyPatches data (GS.patches g) [] = Ok (d, []))
                conf data gs) with (r := r) (d' := d') (g' := g') as [_ K]; try done.
    - intros _. by rewrite Hnil.
    - intros _. cbn [GS.patches validated]. by rewrite Hnil.
    - intros d i g d1 i1 g1 Hp E.
      apply dispatch_Continue in E as [(-> & -> & _) | (Ht & _ & -> & Hlt & _ & _ & ->)];
        [done |].
      cbn [GS.patches appendPatch sawTrailer]. rewrite applyPatches_app, Hp.
      cbn [applyPatches index thePatch oldValue newValue].
      apply byteAt_Ok in Ht. rewrite Ht. simpl_bind.
      by replace (eqb trailer trailer) with true by done.
    - intros d i g r1 d1 g1 Hp E.
      apply dispatch_Return in E as (-> & [(-> & _) | (_ & -> & _)]); done. }
  split; [exact K |]. by eapply applyPatches_length.
Qed.

Lemma ledger_replays_witness :
  applyPatches ex_forged [thePatch 28] [] = Ok (<[28 := extension]> ex_forged, []) ∧
  length (<[28 := extension]> ex_forged) = length ex_forged.
Proof.
  apply (ledger_replays (ex_conf true) ex_forged new_gifstate (Ok 52)
           (<[28 := extension]> ex_forged)
           {| GS.validSignature := true; GS.readTrailer := true;
              GS.bytesOutstanding := 0; GS.patches := [thePatch 28] |}).
  - reflexivity.
  - vm_compute. reflexivity.
Defined.

Lemma ledgerAt_step conf data d i g :
  ledgerAt data d i g →
  match dispatch conf d i g with
  | Continue d' i' g' => ledgerAt data d' i' g'
  | Return _ d' g' => ledgerAt data d' i g'
  end.
Proof.
  intros (Hs & Hf & Hd). unfold ledgerAt.
  destruct (dispatch conf d i g) as [d' i' g'|r d' g'] eqn:E.
  - apply dispatch_Continue in E
      as [(-> & -> & Hi & _) | (Ht & -> & -> & Hlt & _ & _ & ->)].
    + split; [done |]. split.
      * eapply Forall_impl; [exact Hf |]. intros p (? & ? & ? & Hp).
        repeat split; try done. left. lia.
      * intros k Hk. left. destruct (Hd k ltac:(lia)) as [-> | [-> _]]; [done | lia].
    + assert (Forall (λ p, index p < i) (GS.patches g)) as Hlt'.
      { eapply Forall_impl; [exact Hf |]. intros p (_ & _ & _ & [? | [_ He]]); [done |].
        rewrite Ht in He. discriminate. }
      assert (data !! i = Some trailer) as Hdata.
      { destruct (Hd i ltac:(lia)) as [<- | [_ He]]; [done |].
        rewrite Ht in He. discriminate. }
      assert (<[i := extension]> d !! i = Some extension) as Hnew
        by (apply list_lookup_insert_eq; lia).
      cbn [GS.patches appendPatch sawTrailer]. split; [| split].
      * rewrite fmap_app. cbn [fmap list_fmap index thePatch].
        clear -Hs Hlt'. induction (GS.patches g) as [|p ps IH]; cbn.
        { repeat constructor. }
        apply StronglySorted_inv in Hs as [Hs Hp]. apply Forall_cons in Hlt' as [? ?].
        constructor; [by apply IH |].
        apply Forall_app. split; [done |]. by repeat constructor.
      * apply Forall_app. split.
        -- eapply Forall_impl; [exact Hf |]. intros p (? & ? & ? & [? | [_ He]]).
           ++ repeat split; try done. by left.
           ++ rewrite Ht in He. discriminate.
        -- apply Forall_singleton. cbn [index thePatch oldValue newValue].
           repeat split; try done. by right.
      * intros k Hk. destruct (decide (k = i)) as [-> | Hne]; [by right |]. left.
        rewrite list_lookup_insert_ne by done.
        destruct (Hd k Hk) as [-> | [-> _]]; done.
  - apply dispatch_Return in E as (-> & [(-> & _) | (_ & -> & _)]); done.
Qed.

(** X11.  The ledger of a scan that starts with an empty one is in
    strictly increasing order of index, so no offset is patched twice;
    every index is inside the file, where the file as read has 0x3b; every
    patch has old value 0x3b and new value 0x21. *)
Theorem ledger_is_sorted conf data gs r d' g' :
  GS.patches gs = [] →
  scanStream conf data gs = Some (r, d', g') →
  StronglySorted lt (index <$> GS.patches g') ∧
  Forall (λ p, index p < length data ∧ data !! index p = Some x3b ∧
               oldValue p = x3b ∧ newValue p = x21) (GS.patches g').
Proof.
  intros Hnil H.
  destruct (scanStream_invariant (ledgerAt data) conf data gs)
    with (r := r) (d' := d') (g' := g') as [i (Hs & Hf & _)]; try done.
  - intros idx. unfold ledgerAt. rewrite Hnil.
    split; [constructor | split; [constructor | intros; by left]].
  - intros idx. unfold ledgerAt. cbn [GS.patches validated]. rewrite Hnil.
    split; [constructor | split; [constructor | intros; by left]].
  - intros d i g d1 i1 g1 Hp E. pose proof (ledgerAt_step conf data d i g Hp) as K.
    by rewrite E in K.
  - intros d i g r1 d1 g1 Hp E. pose proof (ledgerAt_step conf data d i g Hp) as K.
    by rewrite E in K.
  - split; [done |]. eapply Forall_impl; [exact Hf |].
    intros p (Hp & ? & ? & _). repeat split; try done. by eapply lookup_lt_Some.
Qed.

Lemma ledger_is_sorted_witness :
  let data := ex_header ++ ex_screen ++
              (x3b :: tail ex_control ++ ex_image) ++ ex_image ++
              (x3b :: tail ex_control ++ ex_image) ++ [x3b] in
  StronglySorted lt (index <$> [thePatch 13; thePatch 51]) ∧
  Forall (λ p, index p < length data ∧ data !! index p = Some x3b ∧
               oldValue p = x3b ∧ newValue p = x21) [thePatch 13; thePatch 51].
Proof.
  apply (ledger_is_sorted (ex_conf true)
           (ex_header ++ ex_screen ++
            (x3b :: tail ex_control ++ ex_image) ++ ex_image ++
            (x3b :: tail ex_control ++ ex_image) ++ [x3b])
           new_gifstate (Ok 75)
           (ex_header ++ ex_screen ++
            (ex_control ++ ex_image) ++ ex_image ++ (ex_control ++ ex_image) ++ [x3b])
           {| GS.validSignature := true; GS.readTrailer := true;
              GS.bytesOutstanding := 0; GS.patches := [thePatch 13; thePatch 51] |}).
  - reflexivity.
  - vm_compute. reflexivity.
Defined.

(** ** A scan that returns an offset *)

Lemma iterate_Ok fuel conf d idx g n d' g' :
  iterate fuel conf d idx g = Some (Ok n, d', g') →
  GS.validSignature g' = GS.validSignature g ∧ GS.readTrailer g' = true ∧
  idx < n ≤ length d' ∧ d' !! (n - 1) = Some trailer ∧
  GS.bytesOutstanding g' = length d' - n ∧ length d' = length d.
Proof.
  revert d idx g. induction fuel as [|fuel IH]; intros d idx g; [done |].
  cbn [iterate]. destruct (dispatch conf d idx g) as [d1 i1 g1|r1 d1 g1] eqn:E.
  - intros (Hv & Hr & Hn & Ht & Hb & Hl)%IH.
    apply dispatch_Continue in E as [(-> & -> & ? & _) | (_ & -> & -> & _ & _ & _ & ->)].
    + split; [done |]. split; [done |]. split; [lia |]. done.
    + rewrite length_insert in Hl. split; [done |]. split; [done |]. split; [lia |]. done.
  - intros [= -> -> ->].
    apply dispatch_Return in E as (-> & [(_ & Hno) | (Ht & -> & [[= ->] | ?])]);
      [by destruct (Hno n) | | done].
    apply lookup_lt_Some in Ht as Hlt.
    replace (idx + 1 - 1) with idx by lia.
    split; [done |]. split; [done |]. split; [lia |]. split; [done |]. split; [| done].
    cbn [GS.bytesOutstanding sawTrailer].
    destruct (idx + 1 <? length d) eqn:C; [done |]. apply Nat.ltb_ge in C. lia.
Qed.

(** The only difference between the buffer and the file as read: trailer
    bytes that have become 0x21. *)
Lemma scanStream_changes conf data gs r d' g' :
  scanStream conf data gs = Some (r, d', g') →
  ∀ i, d' !! i = data !! i ∨ d' !! i = Some extension ∧ data !! i = Some trailer.
Proof.
  intros Hs.
  destruct (scanStream_invariant
              (λ d _ _, ∀ i, d !! i = data !! i ∨
                             d !! i = Some extension ∧ data !! i = Some trailer)
              conf data gs) with (r := r) (d' := d') (g' := g') as [_ K]; try done.
  - intros _ i. by left.
  - intros _ i. by left.
  - intros d i g d1 i1 g1 Hp E.
    apply dispatch_Continue in E as [(-> & _) | (Ht & _ & -> & Hlt & _)]; [done |].
    intros k. destruct (decide (k = i)) as [-> | Hne].
    + right. split; [apply list_lookup_insert_eq; lia |].
      destruct (Hp i) as [<- | [He _]]; [done |]. rewrite Ht in He. discriminate.
    + rewrite list_lookup_insert_ne by done. apply Hp.
  - intros d i g r1 d1 g1 Hp E. by apply dispatch_Return in E as (-> & _).
Qed.

(** X12.  When the scan returns an offset, the signature has been
    validated, a trailer has been read, the offset is at least 14 and at
    most the length of the buffer, the byte before it is 0x3b in the buffer
    and in the file as read, the buffer has the length of the file, and
    [bytesOutstanding] is the number of bytes from the offset on. *)
Theorem scan_ends_after_a_trailer conf data gs n d' g' :
  scanStream conf data gs = Some (Ok n, d', g') →
  GS.validSignature g' = true ∧ GS.readTrailer g' = true ∧
  14 ≤ n ≤ length data ∧ length d' = length data ∧
  d' !! (n - 1) = Some x3b ∧ data !! (n - 1) = Some x3b ∧
  GS.bytesOutstanding g' = length data - n.
Proof.
  intros Hscan. pose proof (scanStream_changes _ _ _ _ _ _ Hscan (n - 1)) as Hch.
  revert Hscan. unfold scanStream.
  destruct (streamStart data gs) as [[idx|e|] gs0] eqn:E; [| done | done].
  apply streamStart_Ok in E as (? & ? & ->).
  destruct (readDataBlocksAndTrailer _ _ _ _) as [[[r1 d1] g1]|] eqn:E1; [| done].
  intros Hr1. assert (r1 = Ok n ∧ d1 = d' ∧ g1 = g') as (-> & -> & ->)
    by (destruct r1; [| done | done]; by injection Hr1 as <- <- <-).
  apply iterate_Ok in E1 as (Hv & Hr & Hn & Ht & Hb & Hl).
  rewrite Hl in *.
  split; [done |]. split; [done |]. split; [lia |]. split; [done |]. split; [done |].
  split; [| done].
  destruct Hch as [<- | [He _]]; [done |]. rewrite Ht in He. discriminate.
Qed.

Lemma scan_ends_after_a_trailer_witness :
  ex_forged !! (29 - 1) = Some x3b ∧
  GS.bytesOutstanding (sawTrailer (validated new_gifstate) 23) = length ex_forged - 29.
Proof.
  destruct (scan_ends_after_a_trailer (ex_conf false) ex_forged new_gifstate 29
              ex_forged (sawTrailer (validated new_gifstate) 23))
    as (_ & _ & _ & _ & _ & Ht & Hb).
  - vm_compute. reflexivity.
  - split; [exact Ht | exact Hb].
Defined.

(** ** The Plain Text Extension *)

(** X18.  [readPlainTextExtension] moves twelve bytes on from the size
    byte, not from the byte after it, so the data sub-blocks are read from
    offset [idx + 14].  A block 0x21, 0x01, 0x0c, eleven bytes of any
    value, and sub-blocks with their terminator is read to its last byte,
    anywhere in a buffer.  In a block with the twelve bytes of the format
    the twelfth is therefore taken for the size of the first sub-block:
    when it is 0 (there are no chunks, the bytes after it are what
    follows) the offset returned is [idx + 15], before the text. *)
Theorem readPlainTextExtension_reads_back pre body chunks post :
  length body = 11 →
  Forall (λ chunk, 0 < length chunk ≤ 255) chunks →
  readPlainTextExtension
    (pre ++ [x21; x01; x0c] ++ body ++ encodeSubBlocks chunks ++ post) (length pre)
  = Ok (length pre + 14 + length (encodeSubBlocks chunks)).
Proof.
  intros Hbody Hall.
  pose proof (readDataSubBlocks_from_encode (pre ++ [x21; x01; x0c] ++ body)
                chunks post [] Hall) as Hsub.
  rewrite <- !app_assoc in Hsub. rewrite !length_app, Hbody in Hsub.
  cbn [length app] in Hsub.
  replace (length pre + (3 + 11)) with (length pre + 1 + 1 + 12) in Hsub by lia.
  cbn [app]. unfold readPlainTextExtension.
  rewrite (proj2 (byteAt_Ok _ (length pre) x21)) by (apply list_lookup_middle; done).
  simpl_bind. change (neb x21 extension) with false. cbn iota.
  rewrite (proj2 (byteAt_Ok _ (length pre + 1) x01)).
  2: { rewrite lookup_app_r by lia.
       by replace (length pre + 1 - length pre) with 1 by lia. }
  simpl_bind. change (neb x01 x01) with false. cbn iota.
  rewrite (proj2 (byteAt_Ok _ (length pre + 1 + 1) x0c)).
  2: { rewrite lookup_app_r by lia.
       by replace (length pre + 1 + 1 - length pre) with 2 by lia. }
  simpl_bind. change (negb (to_nat x0c =? 12)) with false. cbn iota.
  unfold readDataSubBlocks. rewrite Hsub. f_equal. lia.
Qed.

Lemma readPlainTextExtension_reads_back_witness :
  readPlainTextExtension ex_plain_text 0 = Ok 15 ∧ 15 < length ex_plain_text.
Proof.
  split; [| vm_compute; lia].
  apply (readPlainTextExtension_reads_back [] (replicate 11 x00) [] [x02; x68; x69; x00]).
  - reflexivity.
  - constructor.
Defined.

(** [ex_plain_text] in a stream.  After an image, [decodeGIF] returns
    "unable to read data blocks" at the first byte of the text, offset 43,
    with or without recovery.  With 0x3b in the place of its introducer
    and recovery on, the re-parse of the copy returns an offset, the byte
    is patched and the patch recorded, and the scan then returns the same
    error. *)
Lemma plain_text_stream_is_rejected :
  readGraphicBlock ex_plain_text 0 = Ok 15 ∧ length ex_plain_text = 19 ∧
  (∀ recover,
     ∃ r, decodeGIF (ex_conf recover)
            (ex_header ++ ex_screen ++ ex_image ++ ex_plain_text ++ [x3b]) new_gifstate
          = Some r ∧
          returned r = Err (InDataBlocks (UnableToReadDataBlocks 43 48)) ∧
          written r = None) ∧
  scanStream (ex_conf true)
    (ex_header ++ ex_screen ++ ex_image ++ [x3b] ++ tail ex_plain_text ++ [x3b])
    new_gifstate
  = Some (Err (InDataBlocks (UnableToReadDataBlocks 43 48)),
          ex_header ++ ex_screen ++ ex_image ++ ex_plain_text ++ [x3b],
          {| GS.validSignature := true; GS.readTrailer := true;
             GS.bytesOutstanding := 19; GS.patches := [thePatch 28] |}).
Proof.
  split; [vm_compute; reflexivity |]. split; [reflexivity |]. split.
  - intros recover. eexists. split; [destruct recover; vm_compute; reflexivity |].
    split; reflexivity.
  - vm_compute. reflexivity.
Qed.

(** ** Streams of blocks *)











(** ** Productions read their own bytes only *)

Lemma byteAt_agree (d d' : list byte) i :
  d' !! i = d !! i → byteAt d' i = byteAt d i.
Proof. unfold byteAt. by intros ->. Qed.

Ltac sizes :=
  repeat match goal with
  | C : negb (?a =? ?b) = false |- _ =>
      lazymatch goal with
      | _ : a = b |- _ => fail
      | _ => pose proof (proj1 (Nat.eqb_eq a b) (proj1 (negb_false_iff _) C))
      end
  end.

Ltac agree_step Hag :=
  match goal with
  | E : byteAt ?d ?i = Ok ?b |- context [byteAt ?d' ?i] =>
      rewrite (byteAt_agree d d' i) by (apply Hag; lia); rewrite E; simpl_bind
  | C : ?c = _ |- context [if ?c then _ else _] => rewrite C
  end.

Ltac inv_read_any H :=
  match type of H with
  | (byteAt ?d ?i ≫= _) = _ =>
      let E := fresh "E" in
      let b := fresh "b" in
      destruct (byteAt d i) as [b|?|] eqn:E; simpl_bind in H;
      [ | exfalso; exact (byteAt_not_Err _ _ _ E) | discriminate H ]
  | (if ?c then _ else _) = _ =>
      let C := fresh "C" in destruct c eqn:C; try discriminate H
  end.

Ltac inv_steps_any H := simpl_bind in H; repeat inv_read_any H.

Ltac agree_steps Hag := simpl_bind; repeat agree_step Hag.

Lemma readDataSubBlocks_from_agree d d' idx buf buf' payload n :
  readDataSubBlocks_from d idx buf = Ok (payload, n) →
  (∀ i, idx ≤ i < n → d' !! i = d !! i) →
  ∃ payload', readDataSubBlocks_from d' idx buf' = Ok (payload', n).
Proof.
  revert d' buf' payload n.
  funelim (readDataSubBlocks_from d idx buf); [| done].
  intros d' buf' payload n Hr Hag.
  rewrite (readDataSubBlocks_from_step d').
  destruct (decide (to_nat b = 0)) as [Hz|Hz].
  - injection Hr as <- <-. rewrite Hag, Hb by lia. rewrite decide_True by done. eauto.
  - pose proof (readDataSubBlocks_from_bounds _ _ _ _ _ Hr).
    rewrite Hag, Hb by lia. rewrite decide_False by done.
    eapply H; [done | exact Hr |]. intros i Hi. apply Hag. lia.
Qed.

Lemma readDataSubBlocks_agree d d' idx payload n :
  readDataSubBlocks d idx = Ok (payload, n) →
  (∀ i, idx ≤ i < n → d' !! i = d !! i) →
  ∃ payload', readDataSubBlocks d' idx = Ok (payload', n).
Proof. apply readDataSubBlocks_from_agree. Qed.

Lemma readGraphicControlExtension_agree d d' idx r :
  readGraphicControlExtension d idx = r → r ≠ Panic →
  (∀ i, idx ≤ i < idx + 8 → d' !! i = d !! i) →
  readGraphicControlExtension d' idx = r.
Proof.
  unfold readGraphicControlExtension. intros H Hnp Hag.
  destruct r as [n|e|]; [| | done]; inv_steps_any H; sizes; agree_steps Hag; done.
Qed.

Lemma readApplicationExtension_agree_Err d d' idx e :
  readApplicationExtension d idx = Err e →
  (∀ i, idx ≤ i < idx + 3 → d' !! i = d !! i) →
  readApplicationExtension d' idx = Err e.
Proof.
  unfold readApplicationExtension. intros H Hag.
  inv_steps_any H; sizes; agree_steps Hag; try done.
  exfalso. revert H.
  match goal with
  | |- match readDataSubBlocks ?d ?i with _ => _ end = _ → _ =>
      destruct (readDataSubBlocks d i) as [[??]|?|] eqn:Es; [done | | done]
  end.
  intros _. by eapply readDataSubBlocks_not_Err.
Qed.

Lemma readApplicationExtension_agree d d' idx ext n :
  readApplicationExtension d idx = Ok (ext, n) →
  (∀ i, idx ≤ i < n → d' !! i = d !! i) →
  ∃ ext', readApplicationExtension d' idx = Ok (ext', n).
Proof.
  unfold readApplicationExtension. intros H Hag.
  inv_steps H. inv_sub H. injection H as _ <-. sizes. agree_steps Hag.
  destruct (readDataSubBlocks_agree d d' _ _ _ E2) as [p' ->]; [| eauto].
  intros i Hi. apply Hag. lia.
Qed.

Lemma readTableBasedImage_agree_Err d d' idx e :
  readTableBasedImage d idx = Err e →
  (∀ i, idx ≤ i < idx + 1 → d' !! i = d !! i) →
  readTableBasedImage d' idx = Err e.
Proof.
  unfold readTableBasedImage. intros H Hag.
  inv_steps_any H; agree_steps Hag; try done.
  exfalso. revert H.
  match goal with
  | |- match readDataSubBlocks ?d ?i with _ => _ end = _ → _ =>
      destruct (readDataSubBlocks d i) as [[??]|?|] eqn:Es; [done | | done]
  end.
  intros _. by eapply readDataSubBlocks_not_Err.
Qed.

Lemma readTableBasedImage_agree d d' idx n :
  readTableBasedImage d idx = Ok n →
  (∀ i, idx ≤ i < n → d' !! i = d !! i) →
  readTableBasedImage d' idx = Ok n.
Proof.
  unfold readTableBasedImage. intros H Hag.
  inv_steps H. inv_sub H. injection H as <-.
  revert E1 E2 H0. destruct (band b0 128 =? 128)%N eqn:F; intros E1 E2 H0;
    agree_steps Hag;
    (destruct (readDataSubBlocks_agree d d' _ _ _ E2) as [p' ->]; [| done]);
    intros i Hi; apply Hag; lia.
Qed.

Lemma readPlainTextExtension_agree_Err d d' idx e :
  readPlainTextExtension d idx = Err e →
  (∀ i, idx ≤ i < idx + 3 → d' !! i = d !! i) →
  readPlainTextExtension d' idx = Err e.
Proof.
  unfold readPlainTextExtension. intros H Hag.
  inv_steps_any H; sizes; agree_steps Hag; try done.
  exfalso. revert H.
  match goal with
  | |- match readDataSubBlocks ?d ?i with _ => _ end = _ → _ =>
      destruct (readDataSubBlocks d i) as [[??]|?|] eqn:Es; [done | | done]
  end.
  intros _. by eapply readDataSubBlocks_not_Err.
Qed.

Lemma readPlainTextExtension_agree d d' idx n :
  readPlainTextExtension d idx = Ok n →
  (∀ i, idx ≤ i < n → d' !! i = d !! i) →
  readPlainTextExtension d' idx = Ok n.
Proof.
  unfold readPlainTextExtension. intros H Hag.
  inv_steps H. inv_sub H. injection H as <-. sizes. agree_steps Hag.
  destruct (readDataSubBlocks_agree d d' _ _ _ E2) as [p' ->]; [| done].
  intros i Hi. apply Hag. lia.
Qed.

Lemma readGraphicRenderingBlock_agree_Err d d' idx e :
  readGraphicRenderingBlock d idx = Err e →
  (∀ i, idx ≤ i < idx + 3 → d' !! i = d !! i) →
  readGraphicRenderingBlock d' idx = Err e.
Proof.
  unfold readGraphicRenderingBlock. intros H Hag.
  destruct (readTableBasedImage d idx) as [m|e1|] eqn:E1; try discriminate H.
  rewrite (readTableBasedImage_agree_Err d d' idx e1 E1) by (intros; apply Hag; lia).
  destruct (readPlainTextExtension d idx) as [m|e2|] eqn:E2; try discriminate H.
  by rewrite (readPlainTextExtension_agree_Err d d' idx e2 E2).
Qed.

Lemma readGraphicRenderingBlock_agree d d' idx n :
  readGraphicRenderingBlock d idx = Ok n →
  (∀ i, idx ≤ i < n → d' !! i = d !! i) →
  readGraphicRenderingBlock d' idx = Ok n.
Proof.
  unfold readGraphicRenderingBlock. intros H Hag.
  destruct (readTableBasedImage d idx) as [m|e1|] eqn:E1; try discriminate H.
  - injection H as ->. by rewrite (readTableBasedImage_agree d d' idx n E1).
  - destruct (readPlainTextExtension d idx) as [m|e2|] eqn:E2; try discriminate H.
    injection H as ->. pose proof (readPlainTextExtension_Ok _ _ _ E2) as (? & _).
    rewrite (readTableBasedImage_agree_Err d d' idx e1 E1) by (intros; apply Hag; lia).
    by rewrite (readPlainTextExtension_agree d d' idx n E2).
Qed.

Lemma readGraphicBlock_agree d d' idx n :
  readGraphicBlock d idx = Ok n →
  (∀ i, idx ≤ i < n → d' !! i = d !! i) →
  readGraphicBlock d' idx = Ok n.
Proof.
  intros H Hag. pose proof (readGraphicBlock_Ok _ _ _ H) as [Hn _].
  revert H. unfold readGraphicBlock.
  destruct (readGraphicControlExtension d idx) as [m|e0|] eqn:E0; [| | done].
  - rewrite (readGraphicControlExtension_agree d d' idx _ E0)
      by (done || intros; apply Hag; lia).
    simpl_bind. apply readGraphicControlExtension_Ok in E0 as (-> & _).
    destruct (readApplicationExtension d (idx + 8)) as [[ext k]|e1|] eqn:E1; [| | done].
    + intros [= ->].
      destruct (readApplicationExtension_agree d d' _ _ _ E1) as [ext' ->]; [| done].
      intros; apply Hag; lia.
    + destruct (readGraphicRenderingBlock d (idx + 8)) as [k|e2|] eqn:E2; [| | done].
      * intros [= ->]. pose proof (readGraphicRenderingBlock_Ok _ _ _ E2) as [? _].
        rewrite (readApplicationExtension_agree_Err d d' _ _ E1)
          by (intros; apply Hag; lia).
        by rewrite (readGraphicRenderingBlock_agree d d' _ _ E2)
          by (intros; apply Hag; lia).
      * intros Hc. inv_steps Hc. discriminate Hc.
  - rewrite (readGraphicControlExtension_agree d d' idx _ E0)
      by (done || intros; apply Hag; lia).
    simpl_bind.
    destruct (readApplicationExtension d idx) as [[ext k]|e1|] eqn:E1; [| | done].
    + intros [= ->].
      destruct (readApplicationExtension_agree d d' _ _ _ E1) as [ext' ->]; done.
    + destruct (readGraphicRenderingBlock d idx) as [k|e2|] eqn:E2; [| done | done].
      intros [= ->].
      rewrite (readApplicationExtension_agree_Err d d' _ _ E1)
        by (intros; apply Hag; lia).
      by rewrite (readGraphicRenderingBlock_agree d d' _ _ E2).
Qed.

(** X15.  A Graphic Block is read from its own bytes only.  When
    [readGraphicBlock] returns the offset [n] for [idx], it returns [n] on
    every buffer that has the same bytes from [idx] up to [n], and the
    dispatcher consumes the block there; and with bytes put in front and
    behind, the block is read at the offset moved by the bytes in front. *)
Theorem graphic_block_is_local d idx n :
  readGraphicBlock d idx = Ok n →
  (∀ d', (∀ i, idx ≤ i < n → d' !! i = d !! i) →
     readGraphicBlock d' idx = Ok n ∧
     ∀ conf gs, dispatch conf d' idx gs = Continue d' n gs) ∧
  (∀ pre post,
     readGraphicBlock (pre ++ d ++ post) (length pre + idx) = Ok (length pre + n)).
Proof.
  intros H. split.
  - intros d' Hag. pose proof (readGraphicBlock_agree d d' idx n H Hag) as H'.
    split; [done |]. intros conf gs. by apply dispatch_block.
  - intros pre post. pose proof (readGraphicBlock_frame pre d post idx) as F.
    rewrite H in F. by apply F.
Qed.

Lemma graphic_block_is_local_witness :
  readGraphicBlock (ex_header ++ ex_image ++ [x3b]) (length ex_header + 0)
  = Ok (length ex_header + 15).
Proof.
  apply (graphic_block_is_local ex_image 0 15).
  vm_compute. reflexivity.
Defined.

(** ** Scanning the buffer a second time *)

Lemma readHeader_agree d d' idx h n :
  readHeader d idx = Ok (h, n) →
  (∀ i, idx ≤ i < n → d' !! i = d !! i) →
  readHeader d' idx = Ok (h, n).
Proof.
  intros H Hag. pose proof (readHeader_Ok _ _ _ _ H) as [-> _].
  unfold readHeader in *. cbv zeta in *.
  rewrite !(byteAt_agree d d') by (apply Hag; lia). exact H.
Qed.

Lemma readLogicalScreenDescriptor_agree d d' idx sd n :
  readLogicalScreenDescriptor d idx = Ok (sd, n) →
  (∀ i, idx ≤ i < n → d' !! i = d !! i) →
  readLogicalScreenDescriptor d' idx = Ok (sd, n).
Proof.
  intros H Hag. pose proof (readLogicalScreenDescriptor_Ok _ _ _ _ H) as (-> & _).
  unfold readLogicalScreenDescriptor in *. cbv zeta in *.
  rewrite !(byteAt_agree d d') by (apply Hag; lia). exact H.
Qed.

Lemma streamStart_agree d d' gs gs' s g :
  streamStart d gs = (Ok s, g) →
  (∀ i, i < s → d' !! i = d !! i) →
  streamStart d' gs' = (Ok s, validated gs').
Proof.
  unfold streamStart. intros H Hag.
  destruct (readHeader d 0) as [[h i1]|?|] eqn:E1; try done.
  pose proof (readHeader_Ok _ _ _ _ E1) as [-> _].
  destruct (readLogicalScreenDescriptor d (0 + 6)) as [[sd i2]|?|] eqn:E2; try done.
  pose proof (readLogicalScreenDescriptor_Ok _ _ _ _ E2) as (-> & _ & _).
  assert (0 + 6 + 7 ≤ s) as Hs.
  { destruct (HasGlobalColourTable sd); unfold readGlobalColourTable in H;
      injection H as <- _; lia. }
  rewrite (readHeader_agree d d' 0 h _ E1) by (intros; apply Hag; lia).
  rewrite (readLogicalScreenDescriptor_agree d d' _ sd _ E2) by (intros; apply Hag; lia).
  destruct (HasGlobalColourTable sd); unfold readGlobalColourTable in *; congruence.
Qed.

Lemma iterate_below fuel conf d idx g r d' g' :
  iterate fuel conf d idx g = Some (r, d', g') →
  ∀ i, i < idx → d' !! i = d !! i.
Proof.
  revert d idx g. induction fuel as [|fuel IH]; intros d idx g; [done |].
  cbn [iterate]. destruct (dispatch conf d idx g) as [d1 i1 g1|r1 d1 g1] eqn:E.
  - intros H i Hi. 
    apply dispatch_Continue in E as [(-> & -> & ? & _) | (_ & -> & -> & _)].
    + apply (IH _ _ _ H). lia.
    + rewrite (IH _ _ _ H) by done. apply list_lookup_insert_ne. lia.
  - intros [= <- <- <-]. by apply dispatch_Return in E as (-> & _).
Qed.

Lemma readSpecialPurposeBlock_graphic d idx n :
  readSpecialPurposeBlock d idx = Ok n → readGraphicBlock d idx = Ok n.
Proof.
  unfold readSpecialPurposeBlock. intros H.
  destruct (readApplicationExtension d idx) as [[ext m]|?|] eqn:E; try discriminate H.
  injection H as ->.
  pose proof (readApplicationExtension_Ok _ _ _ _ E) as (_ & H0 & H1).
  unfold readGraphicBlock, readGraphicControlExtension.
  apply byteAt_Ok in H0, H1. rewrite H0. simpl_bind.
  rewrite (proj2 (neb_false extension extension)) by done. rewrite H1. simpl_bind.
  change (neb xff xf9) with true. cbn iota. simpl_bind. by rewrite E.
Qed.

Lemma dispatch_Continue_block conf d idx g i' g' :
  dispatch conf d idx g = Continue d i' g' → d !! idx ≠ Some trailer →
  readGraphicBlock d idx = Ok i'.
Proof.
  unfold dispatch. intros H Hnt.
  destruct (readSpecialPurposeBlock d idx) as [n|?|] eqn:E1; [| | done].
  { injection H as <- _. by apply readSpecialPurposeBlock_graphic. }
  destruct (readGraphicBlock d idx) as [n|?|] eqn:E2; [| | done].
  { by injection H as <- _. }
  destruct (readTrailer d idx) as [n|?|] eqn:E3; [| done | done].
  by apply readTrailer_Ok in E3 as (_ & _ & ?).
Qed.

Lemma iterate_rescan conf conf' fuel d idx g d' g' g2 :
  iterate fuel conf d idx g = Some (Ok (length d'), d', g') →
  ∃ k, advance k conf' d' idx g2 = Some (d', length d' - 1, g2) ∧
       d' !! (length d' - 1) = Some trailer.
Proof.
  revert d idx g. induction fuel as [|fuel IH]; intros d idx g; [done |].
  cbn [iterate]. destruct (dispatch conf d idx g) as [d1 i1 g1|r1 d1 g1] eqn:E.
  - intros H. destruct (IH _ _ _ H) as (k & Hk & Ht).
    pose proof (dispatch_Continue _ _ _ _ _ _ _ E) as
      [(-> & -> & ? & Hb) | (_ & -> & -> & _)]; [| eauto].
    exists (S k). split; [| done]. cbn [advance].
    rewrite (dispatch_block conf' d' idx g2 i1); [done |].
    apply (readGraphicBlock_agree d).
    + apply (dispatch_Continue_block _ _ _ _ _ _ E).
      intros Ht'. destruct Hb as [Hb | Hb]; rewrite Hb in Ht'; discriminate.
    + intros i Hi. apply (iterate_below _ _ _ _ _ _ _ _ H). lia.
  - intros [= -> -> ->].
    apply dispatch_Return in E as (-> & [(_ & Hno) | (Ht & _ & [[= Hn] | ?])]);
      [by destruct (Hno (length d)) | | done].
    exists 0. replace (length d - 1) with idx by lia. done.
Qed.

Lemma dispatch_last_trailer conf d g :
  d !! (length d - 1) = Some trailer →
  dispatch conf d (length d - 1) g = Return (Ok (length d)) d (sawTrailer g 0).
Proof.
  intros Ht. pose proof (lookup_lt_Some _ _ _ Ht).
  rewrite dispatch_at_trailer by done. unfold trailerFound.
  replace (length d - 1 + 1) with (length d) by lia.
  by rewrite Nat.ltb_irrefl.
Qed.

(** X16.  When a scan gets to the end of its buffer, a second scan of
    the buffer it left, under any configuration and from any state, gets
    to the end as well, changes no byte and records no patch: the patched
    file passes with and without [-reprocess]. *)
Theorem accepted_buffer_scans_clean conf data gs d' g' :
  scanStream conf data gs = Some (Ok (length d'), d', g') →
  ∀ conf' gs',
    scanStream conf' d' gs'
    = Some (Ok (length d'), d', sawTrailer (validated gs') 0).
Proof.
  unfold scanStream at 1.
  destruct (streamStart data gs) as [[s|e|] gs0] eqn:E; [| done | done].
  destruct (readDataBlocksAndTrailer _ _ _ _) as [[[r1 d1] g1]|] eqn:E1; [| done].
  intros Hr conf' gs'.
  assert (r1 = Ok (length d') ∧ d1 = d' ∧ g1 = g') as (-> & -> & ->)
    by (destruct r1; [| done | done]; by injection Hr as <- <- <-).
  unfold readDataBlocksAndTrailer in E1.
  pose proof (streamStart_agree data d' gs gs' s gs0 E
                (iterate_below _ _ _ _ _ _ _ _ E1)) as Hstart.
  destruct (iterate_rescan conf conf' _ _ _ _ _ _ (validated gs') E1) as (k & Hk & Ht).
  assert (scanningAt k conf' d' gs' = Some (d', length d' - 1, validated gs'))
    as Hat by (unfold scanningAt; by rewrite Hstart).
  exact (scanStream_returns _ _ _ _ _ _ _ _ _ _ Hat (dispatch_last_trailer conf' d' _ Ht)).
Qed.

Lemma accepted_buffer_scans_clean_witness :
  scanStream (ex_conf false) (<[28 := x21]> ex_forged) new_gifstate
  = Some (Ok (length (<[28 := x21]> ex_forged)), <[28 := x21]> ex_forged,
          sawTrailer (validated new_gifstate) 0).
Proof.
  apply (accepted_buffer_scans_clean (ex_conf true) ex_forged new_gifstate
           (<[28 := x21]> ex_forged)
           {| GS.validSignature := true; GS.readTrailer := true;
              GS.bytesOutstanding := 0; GS.patches := [thePatch 28] |}).
  vm_compute. reflexivity.
Defined.

(** ** The original loop *)

Lemma dispatch_original conf data idx gs :
  reprocess conf = false →
  match dispatch conf data idx gs with
  | Continue d' i' g' =>
      Original.dispatch data idx = Original.Next i' ∧ d' = data ∧
      GS.patches g' = GS.patches gs
  | Return r d' g' =>
      Original.dispatch data idx = Original.Stop (Original.ofOutcome r) ∧ d' = data ∧
      GS.patches g' = GS.patches gs
  end.
Proof.
  intros Hoff. unfold dispatch, Original.dispatch.
  destruct (readSpecialPurposeBlock data idx) as [n|?|]; [done | | done].
  destruct (readGraphicBlock data idx) as [n|?|]; [done | | done].
  destruct (readTrailer data idx) as [n|?|]; [| done | done].
  unfold trailerFound. by rewrite Hoff, andb_false_r.
Qed.

(** X17.  Without [-reprocess], on every buffer and at every offset,
    [readDataBlocksAndTrailer] returns what the loop of the original
    program returns on the same buffer and offset (the same offset, an
    error where it has its error, a panic where it panics), and leaves
    buffer and ledger as they were. *)
Theorem without_reprocess_is_the_original conf data idx gs :
  reprocess conf = false →
  ∃ r g',
    readDataBlocksAndTrailer conf data idx gs = Some (r, data, g') ∧
    Original.readDataBlocksAndTrailer data idx = Some (Original.ofOutcome r) ∧
    GS.patches g' = GS.patches gs.
Proof.
  intros Hoff.
  destruct (readDataBlocksAndTrailer_total conf data idx gs) as [[[r d'] g'] Hrun].
  unfold readDataBlocksAndTrailer, Original.readDataBlocksAndTrailer in *.
  assert (∀ fuel data idx gs r d' g',
            iterate fuel conf data idx gs = Some (r, d', g') →
            d' = data ∧ Original.iterate fuel data idx = Some (Original.ofOutcome r) ∧
            GS.patches g' = GS.patches gs) as Hsame.
  { clear -Hoff. induction fuel as [|fuel IH]; intros data idx gs r d' g'; [done |].
    cbn [iterate Original.iterate].
    pose proof (dispatch_original conf data idx gs Hoff) as Hd.
    destruct (dispatch conf data idx gs) as [d1 i1 g1|r1 d1 g1].
    - destruct Hd as (-> & -> & <-). apply IH.
    - destruct Hd as (-> & -> & <-). by intros [= <- <- <-]. }
  destruct (Hsame _ _ _ _ _ _ _ Hrun) as (-> & Ho & Hp). eauto.
Qed.

Lemma without_reprocess_is_the_original_witness :
  ∃ r g',
    readDataBlocksAndTrailer (ex_conf false) ex_forged 13 new_gifstate
    = Some (r, ex_forged, g') ∧
    Original.readDataBlocksAndTrailer ex_forged 13 = Some (Original.ofOutcome r) ∧
    GS.patches g' = GS.patches new_gifstate.
Proof.
  apply (without_reprocess_is_the_original (ex_conf false) ex_forged 13 new_gifstate).
  reflexivity.
Defined.
